(** * docker-log-driver-tencent-cls: the buffering / batching delivery pipeline

    A shallow embedding of [logger.go]: the partial-log reassembler
    ([partialLogBuffer]), the message formatter ([messageFormatter]), the
    buffered channel with its two enqueue disciplines ([enqueue]), the two
    delivery workers ([runImmediate], [runBatching]) and the shutdown
    protocol ([Close]).

    Go strings are byte sequences: they are [string] here (a list of 8-bit
    [ascii]).  Go's [int] and [rune] are [Z]. *)

From Stdlib Require Import ZArith Lia List Bool Ascii String.
From stdpp Require Import base option gmap strings list.
Import ListNotations.

Local Open Scope Z_scope.

(** ** Go's UTF-8 conversions

    [logger.go] counts runes ([utf8.RuneCountInString]), converts a string
    to a rune slice ([[]rune(text)]) and back ([string(runes[:end])]).  These
    are language primitives; they are rendered here with the arithmetic that
    Go's masks and shifts compute ([b & 0x3F] is [b mod 64], [x << 6] is
    [x * 64]). *)
Module utf8.

Definition rune := Z.

(** [utf8.RuneError], the replacement character U+FFFD. *)
Definition RuneError : rune := 0xFFFD.
Definition MaxRune : rune := 0x10FFFF.

Definition byte_val (c : ascii) : Z := Z.of_N (N_of_ascii c).
Definition mk_byte (z : Z) : ascii := ascii_of_N (Z.to_N z).

Definition in_range (lo hi b : Z) : bool := (lo <=? b) && (b <=? hi).

(** A continuation byte: [locb <= b <= hicb]. *)
Definition is_cont (b : Z) : bool := in_range 0x80 0xBF b.

(** [utf8.DecodeRuneInString]: the first rune of [s] and its width in
    bytes.  An empty string gives [(RuneError, 0)], an invalid or short
    encoding [(RuneError, 1)]. *)
Definition DecodeRuneInString (s : string) : rune * nat :=
  match s with
  | EmptyString => (RuneError, 0%nat)
  | String c0 s1 =>
      let b0 := byte_val c0 in
      if b0 <? 0x80 then (b0, 1%nat)
      else if in_range 0xC2 0xDF b0 then
        match s1 with
        | String c1 _ =>
            let b1 := byte_val c1 in
            if is_cont b1
            then ((b0 - 0xC0) * 64 + (b1 - 0x80), 2%nat)
            else (RuneError, 1%nat)
        | _ => (RuneError, 1%nat)
        end
      else if in_range 0xE0 0xEF b0 then
        match s1 with
        | String c1 (String c2 _) =>
            let b1 := byte_val c1 in
            let b2 := byte_val c2 in
            let lo := if b0 =? 0xE0 then 0xA0 else 0x80 in
            let hi := if b0 =? 0xED then 0x9F else 0xBF in
            if in_range lo hi b1 && is_cont b2
            then ((b0 - 0xE0) * 4096 + (b1 - 0x80) * 64 + (b2 - 0x80), 3%nat)
            else (RuneError, 1%nat)
        | _ => (RuneError, 1%nat)
        end
      else if in_range 0xF0 0xF4 b0 then
        match s1 with
        | String c1 (String c2 (String c3 _)) =>
            let b1 := byte_val c1 in
            let b2 := byte_val c2 in
            let b3 := byte_val c3 in
            let lo := if b0 =? 0xF0 then 0x90 else 0x80 in
            let hi := if b0 =? 0xF4 then 0x8F else 0xBF in
            if in_range lo hi b1 && is_cont b2 && is_cont b3
            then ((b0 - 0xF0) * 262144 + (b1 - 0x80) * 4096
                  + (b2 - 0x80) * 64 + (b3 - 0x80), 4%nat)
            else (RuneError, 1%nat)
        | _ => (RuneError, 1%nat)
        end
      else (RuneError, 1%nat)
  end.

(** The runes of [s], read left to right; [skip] counts the bytes of the
    current rune that are still to be passed over. *)
Fixpoint runes_from (skip : nat) (s : string) : list rune :=
  match s with
  | EmptyString => []
  | String _ s' =>
      match skip with
      | S k => runes_from k s'
      | O => let '(r, size) := DecodeRuneInString s in
             r :: runes_from (size - 1) s'
      end
  end.

(** [[]rune(s)]. *)
Definition runes_of_string (s : string) : list rune := runes_from 0 s.

(** [utf8.RuneCountInString(s)]: every invalid byte counts as one rune. *)
Definition RuneCountInString (s : string) : Z :=
  Z.of_nat (length (runes_of_string s)).

(** [utf8.ValidString(s)]. *)
Fixpoint valid_from (skip : nat) (s : string) : bool :=
  match s with
  | EmptyString => true
  | String _ s' =>
      match skip with
      | S k => valid_from k s'
      | O => let '(r, size) := DecodeRuneInString s in
             negb ((r =? RuneError) && Nat.eqb size 1)
             && valid_from (size - 1) s'
      end
  end.

Definition ValidString (s : string) : bool := valid_from 0 s.

(** A Unicode scalar value: in range and not a surrogate. *)
Definition valid_rune (r : rune) : Prop :=
  0 <= r <= MaxRune /\ ~ (0xD800 <= r <= 0xDFFF).

Definition valid_runeb (r : rune) : bool :=
  in_range 0 MaxRune r && negb (in_range 0xD800 0xDFFF r).

(** [utf8.AppendRune]: the UTF-8 encoding of [r]; a rune that is out of
    range or a surrogate is encoded as U+FFFD. *)
Definition encode_rune (r : rune) : string :=
  if in_range 0 0x7F r then String (mk_byte r) EmptyString
  else if in_range 0x80 0x7FF r then
    String (mk_byte (0xC0 + r / 64))
      (String (mk_byte (0x80 + r mod 64)) EmptyString)
  else if negb (valid_runeb r) then
    String (mk_byte 0xEF) (String (mk_byte 0xBF) (String (mk_byte 0xBD) EmptyString))
  else if r <? 0x10000 then
    String (mk_byte (0xE0 + r / 4096))
      (String (mk_byte (0x80 + (r / 64) mod 64))
         (String (mk_byte (0x80 + r mod 64)) EmptyString))
  else
    String (mk_byte (0xF0 + r / 262144))
      (String (mk_byte (0x80 + (r / 4096) mod 64))
         (String (mk_byte (0x80 + (r / 64) mod 64))
            (String (mk_byte (0x80 + r mod 64)) EmptyString))).

(** [string(runes)]. *)
Fixpoint string_of_runes (rs : list rune) : string :=
  match rs with
  | [] => EmptyString
  | r :: rs' => (encode_rune r ++ string_of_runes rs')%string
  end.

End utf8.

(** ** Errors and outcomes of a call *)

Inductive error : Type :=
| errUnknownTag (tag : string)   (* fmt.Errorf("%w: %s", errUnknownTag, tag) *)
| errLoggerClosed                (* errors.New("logger is closed") *)
| errEnqueueAfterDrop            (* "failed to enqueue message after dropping oldest" *)
| errEndTag (rest : string).     (* fasttemplate: "Cannot find end tag" *)

(** What a call does: it returns a value in a new state, it panics, it
    parks the goroutine (nothing it waits for can proceed in this state), or
    the model's loop budget ran out before the call came back. *)
Inductive outcome (S R : Type) : Type :=
| Returns (st : S) (r : R)
| Panics (msg : string)
| Blocks
| OutOfFuel.

Arguments Returns {S R} st r.
Arguments Panics {S R} msg.
Arguments Blocks {S R}.
Arguments OutOfFuel {S R}.

(** ** Channels

    [chan string]: the queued elements (oldest first), the capacity given to
    [make], and whether [close] has been called. *)
Record chan : Type := mkChan {
  chan_buf : list string;
  chan_cap : Z;
  chan_closed : bool
}.

(** [make(chan string, capacity)]. *)
Definition make_chan (capacity : Z) : chan := mkChan [] capacity false.

(** [close(ch)]: closing a closed channel panics ([None]). *)
Definition close_chan (ch : chan) : option chan :=
  if chan_closed ch then None
  else Some (mkChan (chan_buf ch) (chan_cap ch) true).

(** The send [ch <- v] as a communication of a [select]: on a closed channel
    it proceeds by panicking; otherwise it proceeds when the queue has room.
    (A send that meets a goroutine parked in a receive finds the queue
    empty; with a capacity of zero such a rendezvous is the only way to
    proceed, and it needs the receiver, which this function does not see.) *)
Inductive send_ready : Type :=
| SendPanics
| SendOk (ch' : chan)
| SendWaits.

Definition chan_send (ch : chan) (v : string) : send_ready :=
  if chan_closed ch then SendPanics
  else if Z.of_nat (length (chan_buf ch)) <? chan_cap ch
       then SendOk (mkChan (chan_buf ch ++ [v]) (chan_cap ch) false)
       else SendWaits.

(** The receive [v, ok := <-ch]: the oldest element if there is one;
    [ok = false] once the channel is closed and empty; otherwise it waits. *)
Inductive recv_ready : Type :=
| RecvOk (v : string) (ch' : chan)
| RecvClosed
| RecvWaits.

Definition chan_recv (ch : chan) : recv_ready :=
  match chan_buf ch with
  | v :: rest => RecvOk v (mkChan rest (chan_cap ch) (chan_closed ch))
  | [] => if chan_closed ch then RecvClosed else RecvWaits
  end.

(** [select]: each case is [Some branch] when its communication can
    proceed.  Any case that can proceed may be the one chosen; when none
    can, the [default] case runs (a [select] without one parks: pass
    [[Blocks]]).  The result lists every way the statement can go. *)
Definition select {A : Type} (cases : list (option (list A))) (default : list A)
  : list A :=
  match omap id cases with
  | [] => default
  | ready => concat ready
  end.

(** ** Log messages ([logger.Message]) *)

Record PartialLogMetaData : Type := mkPLog {
  ID : string;
  Ordinal : Z;
  Last : bool
}.

(** [Timestamp] stands for a [time.Time]; it is kept as the text that
    [Timestamp.UTC().Format(time.RFC3339)] renders. *)
Record Message : Type := mkMessage {
  Line : string;
  Source : string;
  Timestamp : string;
  PLogMetaData : option PartialLogMetaData
}.

Definition set_Line (m : Message) (line : string) : Message :=
  mkMessage line (Source m) (Timestamp m) (PLogMetaData m).

Definition set_PLogMetaData (m : Message) (p : option PartialLogMetaData) : Message :=
  mkMessage (Line m) (Source m) (Timestamp m) p.

(** ** The partial-log reassembler

    [partialLogBuffer.logs]: the map from group ID to the record under
    assembly.  The Go map holds pointers, and [Append] writes through the
    pointer it has just stored or found; here the map entry is rewritten. *)
Abbreviation partialLogBuffer := (gmap string Message).

Definition newPartialLogBuffer : partialLogBuffer := ∅.

Definition Append (b : partialLogBuffer) (log : Message)
  : outcome partialLogBuffer (option Message * bool) :=
  match PLogMetaData log with
  | None => Panics "log must be partial"
  | Some meta =>
      let '(plog, b1) :=
        match b !! ID meta with
        | Some plog => (plog, b)
        | None =>
            (* plog = new(Message); *plog = *log; b.logs[ID] = plog;
               plog.Line = make([]byte, 0, 16*1024); plog.PLogMetaData = nil *)
            let plog := set_PLogMetaData (set_Line log EmptyString) None in
            (plog, <[ID meta := plog]> b)
        end in
      (* plog.Line = append(plog.Line, log.Line...) *)
      let plog' := set_Line plog (Line plog ++ Line log)%string in
      let b2 := <[ID meta := plog']> b1 in
      if Last meta
      then Returns (delete (ID meta) b2) (Some plog', true)
      else Returns b2 (None, false)
  end.

(** ** The message formatter *)

(** Modelled from the spec: the declaration of [ContainerDetails] and its
    methods [ID], [Name], [ImageID] and [ImageName] are not in the files at
    hand.  The record holds the two fields [tagFunc] reads directly and the
    strings the four methods return. *)
Record ContainerDetails : Type := mkContainerDetails {
  ContainerID : string;
  ContainerImageID : string;
  DaemonName : string;
  cd_ID : string;          (* containerDetails.ID() *)
  cd_Name : string;        (* containerDetails.Name() *)
  cd_ImageID : string;     (* containerDetails.ImageID() *)
  cd_ImageName : string    (* containerDetails.ImageName() *)
}.

(** A parsed [fasttemplate.Template]: the literal texts and, between each
    two, a tag. *)
Record Template : Type := mkTemplate {
  texts : list string;
  tags : list string
}.

Inductive scan_mode : Type := InText | InTag.

(** The scan of [fasttemplate]'s [Reset] with start tag "{" and end tag "}":
    text runs to the next "{", a tag to the next "}"; a tag left open is an
    error.  [cur] is what has been read of the current text or tag. *)
Fixpoint scan (m : scan_mode) (cur : string) (s : string) : error + Template :=
  match s with
  | EmptyString =>
      match m with
      | InText => inr (mkTemplate [cur] [])
      | InTag => inl (errEndTag cur)
      end
  | String c s' =>
      match m with
      | InText =>
          if Ascii.eqb c "{"
          then match scan InTag EmptyString s' with
               | inr t => inr (mkTemplate (cur :: texts t) (tags t))
               | inl e => inl e
               end
          else scan InText (cur ++ String c EmptyString)%string s'
      | InTag =>
          if Ascii.eqb c "}"
          then match scan InText EmptyString s' with
               | inr t => inr (mkTemplate (texts t) (cur :: tags t))
               | inl e => inl e
               end
          else scan InTag (cur ++ String c EmptyString)%string s'
      end
  end.

(** [fasttemplate.NewTemplate(template, "{", "}")]. *)
Definition NewTemplate (template : string) : error + Template :=
  scan InText EmptyString template.

(** [Template.ExecuteFunc] into a string: write each text, then what the
    tag function writes for the tag after it; the first error stops. *)
Fixpoint execute (f : string -> error + string) (txts tgs : list string)
  : error + string :=
  match txts with
  | [] => inr EmptyString
  | t :: txts' =>
      match tgs with
      | [] => inr t
      | tag :: tgs' =>
          match f tag with
          | inl e => inl e
          | inr v =>
              match execute f txts' tgs' with
              | inl e => inl e
              | inr rest => inr (t ++ v ++ rest)%string
              end
          end
      end
  end.

Definition ExecuteFuncStringWithErr (t : Template) (f : string -> error + string)
  : error + string :=
  execute f (texts t) (tags t).

Record messageFormatter : Type := mkFormatter {
  template : Template;
  containerDetails : ContainerDetails;
  attrs : gmap string string
}.

(** [tagFunc]: what the tag function writes for [tag], or the unknown-tag
    error. *)
Definition tagFunc (f : messageFormatter) (msg : Message) (tag : string)
  : error + string :=
  if String.eqb tag "log" then inr (Line msg)
  else if String.eqb tag "timestamp" then inr (Timestamp msg)
  else if String.eqb tag "container_id" then inr (cd_ID (containerDetails f))
  else if String.eqb tag "container_full_id" then inr (ContainerID (containerDetails f))
  else if String.eqb tag "container_name" then inr (cd_Name (containerDetails f))
  else if String.eqb tag "image_id" then inr (cd_ImageID (containerDetails f))
  else if String.eqb tag "image_full_id" then inr (ContainerImageID (containerDetails f))
  else if String.eqb tag "image_name" then inr (cd_ImageName (containerDetails f))
  else if String.eqb tag "daemon_name" then inr (DaemonName (containerDetails f))
  else match attrs f !! tag with
       | Some value => inr value
       | None => inl (errUnknownTag tag)
       end.

(** [validateTemplate]: a dry run on a synthetic message; [now] is the
    rendering of [time.Now()]. *)
Definition validateTemplate (f : messageFormatter) (now : string) : option error :=
  let msg := mkMessage "validate" EmptyString now None in
  match ExecuteFuncStringWithErr (template f) (tagFunc f msg) with
  | inl e => Some e
  | inr _ => None
  end.

Definition newMessageFormatter (cd : ContainerDetails) (attributes : gmap string string)
  (tmpl : string) (now : string) : error + messageFormatter :=
  match NewTemplate tmpl with
  | inl e => inl e
  | inr t =>
      let formatter := mkFormatter t cd attributes in
      match validateTemplate formatter now with
      | Some e => inl e
      | None => inr formatter
      end
  end.

(** [Format]: [ExecuteFuncString] panics on an error of the tag function
    ([None]). *)
Definition Format (f : messageFormatter) (msg : Message) : option string :=
  match ExecuteFuncStringWithErr (template f) (tagFunc f msg) with
  | inl _ => None
  | inr s => Some s
  end.

(** The built-in tags. *)
Definition builtin_tags : list string :=
  ["log"; "timestamp"; "container_id"; "container_full_id"; "container_name";
   "image_id"; "image_full_id"; "image_name"; "daemon_name"]%string.

(** ** The logger *)

Definition defaultLogMessageChars : Z := 4096.
Definition defaultBufferCapacity : Z := 10000.

(** The fields of [loggerConfig] that [logger.go] reads.  [FilterRegex] is
    the compiled expression's [Match], when there is one. *)
Record loggerConfig : Type := mkConfig {
  Attrs : gmap string string;
  Template_ : string;
  FilterRegex : option (string -> bool);
  MaxBufferSize : Z;
  BatchEnabled : bool
}.

(** [client] is the record of the calls [SendMessage] received, oldest
    first; [closed] is [true] once [close(l.closed)] has run. *)
Record TencentCLSLogger : Type := mkLogger {
  client : list string;
  formatter : messageFormatter;
  cfg : loggerConfig;
  maxLogMessageChars : Z;
  buffer : chan;
  partialLogsBuffer : partialLogBuffer;
  closed : bool
}.

Definition set_client (l : TencentCLSLogger) (c : list string) : TencentCLSLogger :=
  mkLogger c (formatter l) (cfg l) (maxLogMessageChars l) (buffer l)
    (partialLogsBuffer l) (closed l).

Definition set_buffer (l : TencentCLSLogger) (ch : chan) : TencentCLSLogger :=
  mkLogger (client l) (formatter l) (cfg l) (maxLogMessageChars l) ch
    (partialLogsBuffer l) (closed l).

Definition set_maxLogMessageChars (l : TencentCLSLogger) (n : Z) : TencentCLSLogger :=
  mkLogger (client l) (formatter l) (cfg l) n (buffer l)
    (partialLogsBuffer l) (closed l).

Definition set_partialLogsBuffer (l : TencentCLSLogger) (b : partialLogBuffer)
  : TencentCLSLogger :=
  mkLogger (client l) (formatter l) (cfg l) (maxLogMessageChars l) (buffer l)
    b (closed l).

Definition set_closed (l : TencentCLSLogger) (c : bool) : TencentCLSLogger :=
  mkLogger (client l) (formatter l) (cfg l) (maxLogMessageChars l) (buffer l)
    (partialLogsBuffer l) c.

Definition set_BatchEnabled (l : TencentCLSLogger) (b : bool) : TencentCLSLogger :=
  mkLogger (client l) (formatter l)
    (mkConfig (Attrs (cfg l)) (Template_ (cfg l)) (FilterRegex (cfg l))
       (MaxBufferSize (cfg l)) b)
    (maxLogMessageChars l) (buffer l) (partialLogsBuffer l) (closed l).

(** [WithBufferCapacity]. *)
Definition WithBufferCapacity (capacity : Z) (l : TencentCLSLogger) : TencentCLSLogger :=
  if 0 <? capacity then set_buffer l (make_chan capacity) else l.

(** [WithMaxLogMessageChars]. *)
Definition WithMaxLogMessageChars (maxLen : Z) (l : TencentCLSLogger) : TencentCLSLogger :=
  set_maxLogMessageChars l maxLen.

(** The error of [NewTencentCLSLogger]: the error of one of its three
    steps, wrapped by [fmt.Errorf].  [E] is the type of the errors of
    [parseLoggerConfig], [C] of those of [NewClient]. *)
Inductive new_logger_error (E C : Type) : Type :=
| errParseLoggerConfig (err : E)     (* "failed to parse logger config: %w" *)
| errCreateFormatter (err : error)   (* "failed to create message formatter: %w" *)
| errCreateClient (err : C).         (* "failed to create Telegram Client: %w" *)

Arguments errParseLoggerConfig {E C} err.
Arguments errCreateFormatter {E C} err.
Arguments errCreateClient {E C} err.

(** [NewTencentCLSLogger]: the configuration is parsed, the formatter built
    and validated, the client created, the buffer made, the options applied
    in order; the first of the three steps that fails ends the call with its
    error wrapped.  [parseLoggerConfig] and [NewClient] (which calls the
    SDK) are taken as they come: [NewClient config] is the error it returns,
    [None] for [nil]; the client it creates has received nothing.  (The
    worker the call starts is the [worker] of the system below.) *)
Definition NewTencentCLSLogger {E C : Type}
  (parseLoggerConfig : ContainerDetails -> E + loggerConfig)
  (NewClient : loggerConfig -> option C)
  (cd : ContainerDetails) (now : string)
  (opts : list (TencentCLSLogger -> TencentCLSLogger))
  : new_logger_error E C + TencentCLSLogger :=
  match parseLoggerConfig cd with
  | inl err => inl (errParseLoggerConfig err)
  | inr config =>
      match newMessageFormatter cd (Attrs config) (Template_ config) now with
      | inl err => inl (errCreateFormatter err)
      | inr fmt =>
          match NewClient config with
          | Some err => inl (errCreateClient err)
          | None =>
              let bufferCapacity :=
                if MaxBufferSize config <=? 0 then 0 else defaultBufferCapacity in
              let l := mkLogger [] fmt config defaultLogMessageChars
                         (make_chan bufferCapacity) newPartialLogBuffer false in
              inr (fold_left (fun l opt => opt l) opts l)
          end
      end
  end.

(** [isClosed]: a receive from [l.closed] can proceed only once it is
    closed. *)
Definition isClosed (l : TencentCLSLogger) : bool := closed l.

(** [send]: an error of [SendMessage] is logged and dropped. *)
Definition send (l : TencentCLSLogger) (log : string) : TencentCLSLogger :=
  set_client l (client l ++ [log]).

Abbreviation call := (outcome TencentCLSLogger (option error)).

(** The case [l.buffer <- log] of a [select], with what the branch does. *)
Definition send_case (l : TencentCLSLogger) (log : string)
  (branch : TencentCLSLogger -> list call) : option (list call) :=
  match chan_send (buffer l) log with
  | SendPanics => Some [Panics "send on closed channel"]
  | SendOk ch' => Some (branch (set_buffer l ch'))
  | SendWaits => None
  end.

(** The case [<-l.closed]. *)
Definition closed_case {A : Type} (l : TencentCLSLogger) (branch : list A)
  : option (list A) :=
  if closed l then Some branch else None.

(** The case [<-l.buffer] of the eviction: the received value is dropped.
    A closed and empty channel lets the receive proceed as well. *)
Definition drop_case (l : TencentCLSLogger)
  (branch : TencentCLSLogger -> list call) : option (list call) :=
  match chan_recv (buffer l) with
  | RecvOk _ ch' => Some (branch (set_buffer l ch'))
  | RecvClosed => Some (branch l)
  | RecvWaits => None
  end.

(** [enqueue].  In the bounded discipline the caller holds [l.mu]
    throughout; the worker is taken not to receive between the selects. *)
Definition enqueue (l : TencentCLSLogger) (log : string) : list call :=
  if MaxBufferSize (cfg l) <=? 0 then
    (* l.buffer <- log // May block. *)
    match chan_send (buffer l) log with
    | SendPanics => [Panics "send on closed channel"]
    | SendOk ch' => [Returns (set_buffer l ch') None]
    | SendWaits => [Blocks]
    end
  else
    select
      [ send_case l log (fun l' => [Returns l' None]);
        closed_case l [Returns l (Some errLoggerClosed)] ]
      (* default: buffer is full *)
      (let retry (l1 : TencentCLSLogger) : list call :=
         select
           [ send_case l1 log (fun l2 => [Returns l2 None]);
             closed_case l1 [Returns l1 (Some errLoggerClosed)] ]
           [Returns l1 (Some errEnqueueAfterDrop)] in
       select [ drop_case l retry ] (retry l)).

(** Sequencing of calls, as [if err := ...; err != nil { return err }]
    does it: only a call that returned [nil] goes on. *)
Definition and_then (cs : list call) (k : TencentCLSLogger -> list call) : list call :=
  flat_map (fun c => match c with
                     | Returns l' None => k l'
                     | other => [other]
                     end) cs.

(** The loop of [Log] that splits [runes]; [fuel] bounds its iterations.
    [runes[:end]] panics for a negative [end]. *)
Fixpoint splitLoop (fuel : nat) (l : TencentCLSLogger) (runes : list utf8.rune)
  : list call :=
  match fuel with
  | O => [OutOfFuel]
  | S fuel' =>
      if 0 <? Z.of_nat (length runes) then
        let end_ :=
          if Z.of_nat (length runes) <? maxLogMessageChars l
          then Z.of_nat (length runes)
          else maxLogMessageChars l in
        if end_ <? 0 then [Panics "slice bounds out of range"]
        else
          let slog := utf8.string_of_runes (take (Z.to_nat end_) runes) in
          let runes' := drop (Z.to_nat end_) runes in
          and_then (enqueue l slog) (fun l' => splitLoop fuel' l' runes')
      else [Returns l None]
  end.

(** [Log]. *)
Definition Log (fuel : nat) (l : TencentCLSLogger) (log : Message) : list call :=
  if isClosed l then [Returns l (Some errLoggerClosed)]
  else
    let rest (l : TencentCLSLogger) (log : Message) : list call :=
      if match FilterRegex (cfg l) with
         | Some matches => negb (matches (Line log))
         | None => false
         end
      then [Returns l None]
      else
        match Format (formatter l) log with
        | None => [Panics "unexpected error"]
        | Some text =>
            if maxLogMessageChars l <? utf8.RuneCountInString text
            then splitLoop fuel l (utf8.runes_of_string text)
            else enqueue l text
        end in
    match PLogMetaData log with
    | Some _ =>
        match Append (partialLogsBuffer l) log with
        | Returns b' (assembledLog, last) =>
            if negb last then [Returns (set_partialLogsBuffer l b') None]
            else match assembledLog with
                 | Some assembled => rest (set_partialLogsBuffer l b') assembled
                 | None => [Panics "nil pointer dereference"]
                 end
        | Panics msg => [Panics msg]
        | Blocks => [Blocks]
        | OutOfFuel => [OutOfFuel]
        end
    | None => rest l log
    end.

(** ** The delivery worker *)

Definition newline : ascii := "010"%char.

(** The last byte of a string, and the string without it
    ([batch.Bytes()[batch.Len()-1]], [batch.Truncate(batch.Len() - 1)]). *)
Fixpoint last_byte (s : string) : option ascii :=
  match s with
  | EmptyString => None
  | String c EmptyString => Some c
  | String _ s' => last_byte s'
  end.

Fixpoint truncate_last (s : string) : string :=
  match s with
  | EmptyString => EmptyString
  | String c EmptyString => EmptyString
  | String c s' => String c (truncate_last s')
  end.

(** Where the worker goroutine is: at the [select] of its loop, about to run
    the deferred [flush()] (batching only), in the deferred [drain()], or
    past [l.wg.Done()]. *)
Inductive wpc : Type := WLoop | WDeferFlush | WDeferDrain | WDone.

(** The worker's locals: its place, and [batch] with [batchRuneCount]. *)
Record worker : Type := mkWorker {
  pc : wpc;
  batch : string;
  batchRuneCount : Z
}.

Definition set_pc (w : worker) (p : wpc) : worker :=
  mkWorker p (batch w) (batchRuneCount w).

(** The closure [flush] of [runBatching]. *)
Definition flush (l : TencentCLSLogger) (w : worker) : TencentCLSLogger * worker :=
  if (String.length (batch w) =? 0)%nat then (l, w)
  else
    let w1 :=
      if match last_byte (batch w) with
         | Some c => Ascii.eqb c newline
         | None => false
         end
      then mkWorker (pc w) (truncate_last (batch w)) (batchRuneCount w - 1)
      else w in
    (send l (batch w1), mkWorker (pc w) EmptyString 0).

(** The closure [add] of [runBatching]. *)
Definition add (l : TencentCLSLogger) (w : worker) (log : string)
  : TencentCLSLogger * worker :=
  let logLength := utf8.RuneCountInString log + 1 in
  let w1 := mkWorker (pc w) (batch w ++ log ++ String newline EmptyString)%string
              (batchRuneCount w + logLength) in
  if maxLogMessageChars l <=? batchRuneCount w1 then flush l w1 else (l, w1).

(** The case of the worker's [select] that a step takes. *)
Inductive pick : Type := PickBuffer | PickTicker | PickClosed.

(** One step of [runImmediate]: [None] when the step cannot be taken. *)
Definition runImmediate_step (p : pick) (l : TencentCLSLogger) (w : worker)
  : option (TencentCLSLogger * worker) :=
  match pc w with
  | WLoop =>
      match p with
      | PickBuffer =>
          match chan_recv (buffer l) with
          | RecvOk log ch' => Some (send (set_buffer l ch') log, w)
          | RecvClosed => Some (l, set_pc w WDeferDrain)
          | RecvWaits => None
          end
      | PickClosed => if closed l then Some (l, set_pc w WDeferDrain) else None
      | PickTicker => None
      end
  | WDeferDrain =>
      (* for log := range l.buffer { l.send(log) } *)
      match chan_recv (buffer l) with
      | RecvOk log ch' => Some (send (set_buffer l ch') log, w)
      | RecvClosed => Some (l, set_pc w WDone)
      | RecvWaits => None
      end
  | WDeferFlush | WDone => None
  end.

(** One step of [runBatching].  The deferred calls run last registered
    first: [flush()], then [drain()], then [ticker.Stop()] and
    [l.wg.Done()].  The ticker may fire at any step. *)
Definition runBatching_step (p : pick) (l : TencentCLSLogger) (w : worker)
  : option (TencentCLSLogger * worker) :=
  match pc w with
  | WLoop =>
      match p with
      | PickBuffer =>
          match chan_recv (buffer l) with
          | RecvOk log ch' => Some (add (set_buffer l ch') w log)
          | RecvClosed => Some (l, set_pc w WDeferFlush)
          | RecvWaits => None
          end
      | PickTicker => Some (flush l w)
      | PickClosed => if closed l then Some (l, set_pc w WDeferFlush) else None
      end
  | WDeferFlush =>
      let '(l', w') := flush l w in Some (l', set_pc w' WDeferDrain)
  | WDeferDrain =>
      (* for log := range l.buffer { add(log) } *)
      match chan_recv (buffer l) with
      | RecvOk log ch' => Some (add (set_buffer l ch') w log)
      | RecvClosed => Some (l, set_pc w WDone)
      | RecvWaits => None
      end
  | WDone => None
  end.

(** The runner chosen by [NewTencentCLSLogger]. *)
Definition runner (p : pick) (l : TencentCLSLogger) (w : worker)
  : option (TencentCLSLogger * worker) :=
  if BatchEnabled (cfg l) then runBatching_step p l w else runImmediate_step p l w.

(** ** The logger with its worker and a caller of [Close] *)

(** Where the call of [Close] is: not yet past the [isClosed] test, past
    [close(l.closed)], past [close(l.buffer)] and in [l.wg.Wait()], or
    returned. *)
Inductive cpc : Type :=
| CEntry
| CSignalled
| CWaiting
| CReturned (err : option error)
| CPanicked.

Record system : Type := mkSystem {
  sys_logger : TencentCLSLogger;
  sys_worker : worker;
  sys_closer : cpc
}.

(** One step of [Close]. *)
Definition Close_step (s : system) : option system :=
  let l := sys_logger s in
  match sys_closer s with
  | CEntry =>
      if isClosed l then Some (mkSystem l (sys_worker s) (CReturned None))
      else Some (mkSystem (set_closed l true) (sys_worker s) CSignalled)
  | CSignalled =>
      match close_chan (buffer l) with
      | Some ch => Some (mkSystem (set_buffer l ch) (sys_worker s) CWaiting)
      | None => Some (mkSystem l (sys_worker s) CPanicked)
      end
  | CWaiting =>
      match pc (sys_worker s) with
      | WDone => Some (mkSystem l (sys_worker s) (CReturned None))
      | _ => None
      end
  | CReturned _ | CPanicked => None
  end.

Inductive action : Type :=
| ActWorker (p : pick)
| ActClose.

Definition sys_step (a : action) (s : system) : option system :=
  match a with
  | ActWorker p =>
      match runner p (sys_logger s) (sys_worker s) with
      | Some (l', w') => Some (mkSystem l' w' (sys_closer s))
      | None => None
      end
  | ActClose => Close_step s
  end.

(** A schedule: the steps taken, in order. *)
Fixpoint run (sched : list action) (s : system) : option system :=
  match sched with
  | [] => Some s
  | a :: sched' =>
      match sys_step a s with
      | Some s' => run sched' s'
      | None => None
      end
  end.

(** A new call of [Close] on the same logger. *)
Definition call_Close (s : system) : system :=
  mkSystem (sys_logger s) (sys_worker s) CEntry.

(** The worker as [NewTencentCLSLogger] starts it. *)
Definition start_worker : worker := mkWorker WLoop EmptyString 0.

Definition start (l : TencentCLSLogger) : system := mkSystem l start_worker CEntry.

(** ** Reference definitions, in the words of the specification *)

(** Successive chunks of at most [n] runes each. *)
Fixpoint chunks (fuel n : nat) (rs : list utf8.rune) : list (list utf8.rune) :=
  match fuel with
  | O => []
  | S fuel' =>
      match rs with
      | [] => []
      | _ => take n rs :: chunks fuel' n (drop n rs)
      end
  end.

Definition spec_chunks (n : Z) (rs : list utf8.rune) : list (list utf8.rune) :=
  chunks (length rs) (Z.to_nat n) rs.

(** Each of [logs] enqueued in order; the first call that does not return
    [nil] ends the sequence. *)
Fixpoint enqueue_all (l : TencentCLSLogger) (logs : list string) : list call :=
  match logs with
  | [] => [Returns l None]
  | log :: logs' => and_then (enqueue l log) (fun l' => enqueue_all l' logs')
  end.

(** [Append] called on each of [logs] in order, with the results of the
    calls. *)
Fixpoint Append_seq (b : partialLogBuffer) (logs : list Message)
  : outcome partialLogBuffer (list (option Message * bool)) :=
  match logs with
  | [] => Returns b []
  | log :: logs' =>
      match Append b log with
      | Returns b' r =>
          match Append_seq b' logs' with
          | Returns b'' rs => Returns b'' (r :: rs)
          | Panics msg => Panics msg
          | Blocks => Blocks
          | OutOfFuel => OutOfFuel
          end
      | Panics msg => Panics msg
      | Blocks => Blocks
      | OutOfFuel => OutOfFuel
      end
  end.

(** Concatenation of strings. *)
Fixpoint join (ss : list string) : string :=
  match ss with
  | [] => EmptyString
  | s :: ss' => (s ++ join ss')%string
  end.

(** ** Concrete loggers for the examples *)

Definition example_details : ContainerDetails :=
  mkContainerDetails "0123456789abcdef" "sha256:fedcba9876543210" "docker"
    "0123456789ab" "web-1" "fedcba987654" "nginx:latest".

Definition example_formatter : messageFormatter :=
  mkFormatter (mkTemplate [EmptyString; EmptyString] ["log"%string]) example_details ∅.

(** A logger with the template "{log}", no filter, the given
    [MaxBufferSize], mode, message limit and buffer capacity. *)
Definition example_logger (maxBufferSize : Z) (batching : bool)
  (maxChars capacity : Z) : TencentCLSLogger :=
  mkLogger [] example_formatter
    (mkConfig ∅ "{log}" None maxBufferSize batching)
    maxChars (make_chan capacity) newPartialLogBuffer false.

Definition plain (line : string) : Message :=
  mkMessage line "stdout" "2024-01-01T00:00:00Z" None.

Definition fragment (id line : string) (last : bool) : Message :=
  mkMessage line "stdout" "2024-01-01T00:00:00Z" (Some (mkPLog id 0 last)).

(** ** Predicates and inputs used in the statements *)

(** [enqueue] changes the buffer of the logger and nothing else. *)
Definition frame (l : TencentCLSLogger) (c : call) : Prop :=
  match c with
  | Returns l' _ => exists ch, l' = set_buffer l ch
  | _ => True
  end.

(** A call that came back within the loop budget. *)
Definition no_fuel_out (c : call) : Prop := c <> OutOfFuel.

(** [m] is a fragment of the group [id], terminal or not as [last] says. *)
Definition is_fragment (id : string) (last : bool) (m : Message) : Prop :=
  exists meta, PLogMetaData m = Some meta /\ ID meta = id /\ Last meta = last.

(** The record a group starts from: the first fragment with its payload
    and fragment metadata cleared. *)
Definition seed (m : Message) : Message :=
  set_PLogMetaData (set_Line m EmptyString) None.

(** A tag the formatter resolves: built in, or a key of the attributes. *)
Definition known_tag (attributes : gmap string string) (tag : string) : Prop :=
  In tag builtin_tags \/ is_Some (attributes !! tag).

(** An open logger in the bounded discipline whose buffer respects its
    capacity. *)
Definition open_bounded (l : TencentCLSLogger) : Prop :=
  0 < MaxBufferSize (cfg l) /\ closed l = false /\
  chan_closed (buffer l) = false /\
  0 < chan_cap (buffer l) /\
  Z.of_nat (length (chan_buf (buffer l))) <= chan_cap (buffer l).

(** "12345", a newline, "67890". *)
Definition batch_12345_67890 : string :=
  ("12345" ++ String newline "67890")%string.

(** What the worker's closures leave alone: everything but the record of
    the client's calls, and the worker's place. *)
Definition same_but_client (l l' : TencentCLSLogger) : Prop :=
  exists c, l' = set_client l c.

(** Once [Close] is past its test, the closed signal is set. *)
Definition closer_signalled (s : system) : Prop :=
  match sys_closer s with
  | CSignalled | CWaiting | CReturned _ => closed (sys_logger s) = true
  | CEntry | CPanicked => True
  end.

(** What every step keeps in immediate mode: the messages sent followed by
    the messages queued are [delivered], and the worker is done only on an
    empty buffer. *)
Definition immediate_inv (delivered : list string) (s : system) : Prop :=
  BatchEnabled (cfg (sys_logger s)) = false /\
  client (sys_logger s) ++ chan_buf (buffer (sys_logger s)) = delivered /\
  (pc (sys_worker s) = WDone -> chan_buf (buffer (sys_logger s)) = []).

(** The messages of the drain-on-close scenario. *)
Definition five_messages : list string := ["m1"; "m2"; "m3"; "m4"; "m5"]%string.

(** The schedule of a [Close] whose worker takes the case [<-l.closed]
    while the five messages are still in the buffer. *)
Definition closed_first : list action :=
  [ActClose; ActClose; ActWorker PickClosed]
  ++ replicate 7 (ActWorker PickBuffer) ++ [ActClose].

(** The schedule of the same [Close] whose worker keeps receiving from the
    buffer until it is closed and empty. *)
Definition buffer_first : list action :=
  [ActClose; ActClose] ++ replicate 8 (ActWorker PickBuffer) ++ [ActClose].

(** A logger after [Close]: unbounded discipline, signal and buffer closed. *)
Definition closed_unbounded_logger : TencentCLSLogger :=
  set_buffer (set_closed (example_logger 0 false defaultLogMessageChars 0) true)
    (mkChan [] 0 true).

(** The byte 0xFF, which is not valid UTF-8, followed by "a". *)
Definition invalid_text : string := String "255"%char "a".

(** The encoding of U+FFFD. *)
Definition replacement_char : string :=
  String "239"%char (String "191"%char (String "189"%char EmptyString)).

(** ** The rest of the code: sequences of calls, the batch as a byte stream *)

(** [Log] called on each of [logs] in order; the first call that does not
    return [nil] ends the sequence. *)
Fixpoint Log_all (fuel : nat) (l : TencentCLSLogger) (logs : list Message)
  : list call :=
  match logs with
  | [] => [Returns l None]
  | log :: logs' => and_then (Log fuel l log) (fun l' => Log_all fuel l' logs')
  end.

(** The messages of [ms] as [add] lays them out in the batch: each followed
    by a newline. *)
Definition lines (ms : list string) : string :=
  join (map (fun m => (m ++ String newline EmptyString)%string) ms).

(** A batch as [add] leaves it: empty, or ending in a newline. *)
Definition batch_ok (b : string) : Prop :=
  b = EmptyString \/ exists s, b = (s ++ String newline EmptyString)%string.

(** The bytes on their way to the sink, in order: what the client has
    received, the batch, what waits in the buffer. *)
Definition stream (s : system) : string :=
  (lines (client (sys_logger s)) ++ batch (sys_worker s)
   ++ lines (chan_buf (buffer (sys_logger s))))%string.

(** Whether the byte [c] occurs in [s]. *)
Fixpoint has_byte (c : ascii) (s : string) : bool :=
  match s with
  | EmptyString => false
  | String c' s' => Ascii.eqb c' c || has_byte c s'
  end.

(** The options of [NewTencentCLSLogger] that [logger.go] declares. *)
Inductive logger_option : (TencentCLSLogger -> TencentCLSLogger) -> Prop :=
| opt_capacity (capacity : Z) : logger_option (WithBufferCapacity capacity)
| opt_max_chars (maxLen : Z) : logger_option (WithMaxLogMessageChars maxLen).

(** ** The client's configuration ([client.go]) *)

(** The fields of [ClientConfig] that [Validate] and [parseClientConfig]
    touch.  [Timeout] is a [time.Duration], in nanoseconds. *)
Record ClientConfig : Type := mkClientConfig {
  Endpoint : string;
  SecretID : string;
  SecretKey : string;
  TopicID : string;
  Retries : Z;
  Timeout : Z
}.

(** [errors.Join]: [nil] when there is no error to join. *)
Definition errors_Join (errs : list string) : option (list string) :=
  match errs with
  | [] => None
  | _ => Some errs
  end.

Definition is_empty (s : string) : bool := String.eqb s EmptyString.

(** [ClientConfig.Validate]: the messages of the joined error, or [None]
    for [nil]. *)
Definition ClientConfig_Validate (c : ClientConfig) : option (list string) :=
  let errs := [] in
  let errs := if is_empty (Endpoint c)
              then errs ++ ["endpoint is required"%string] else errs in
  let errs := if is_empty (SecretID c)
              then errs ++ ["secret ID is required"%string] else errs in
  let errs := if is_empty (SecretKey c)
              then errs ++ ["secret key is required"%string] else errs in
  let errs := if is_empty (TopicID c)
              then errs ++ ["topic ID is required"%string] else errs in
  errors_Join errs.

(** ** The driver's options (the configuration file of [src/unnamed]) *)

Definition cfgEndpointKey : string := "endpoint".
Definition cfgSecretIDKey : string := "secret_id".
Definition cfgSecretKeyKey : string := "secret_key".
Definition cfgTopicIDKey : string := "topic_id".
Definition cfgRetriesKey : string := "retries".
Definition cfgTimeoutKey : string := "timeout".
Definition cfgNoFileKey : string := "no-file".
Definition cfgKeepFileKey : string := "keep-file".
Definition cfgTemplateKey : string := "template".
Definition cfgFilterRegexKey : string := "filter-regex".

(** The options the [switch] of [validateDriverOptions] lets through. *)
Definition known_options : list string :=
  [cfgEndpointKey; cfgSecretIDKey; cfgSecretKeyKey; cfgTopicIDKey;
   cfgRetriesKey; cfgTimeoutKey; cfgTemplateKey; cfgFilterRegexKey;
   "max-file"; "max-size"; "compress"; "labels"; "labels-regex"; "env";
   "env-regex"; "tag"; "mode"; cfgNoFileKey; cfgKeepFileKey]%string.

Inductive config_error : Type :=
| errUnknownOpt (opt : string)       (* "unknown log opt '%s' for tencent cls log driver" *)
| errParseOption (key : string)      (* "failed to parse %q option: %w" *)
| errInvalidOption (key : string) (value : Z)   (* "invalid %q option: %d" *)
| errClientConfig (missing : list string).      (* ClientConfig.Validate *)

(** [validateDriverOptions], on the keys of [opts] in the order the [range]
    visits them (an order Go leaves open): the first key that is no known
    option is the error. *)
Fixpoint validateDriverOptions (keys : list string) : option config_error :=
  match keys with
  | [] => None
  | opt :: keys' =>
      if existsb (String.eqb opt) known_options
      then validateDriverOptions keys'
      else Some (errUnknownOpt opt)
  end.

(** [containerDetails.Config[key]]: a missing key reads as the empty
    string. *)
Definition config_get (config : gmap string string) (key : string) : string :=
  default EmptyString (config !! key).

Definition defaultRetries : Z := 5.
(** [10 * time.Second]. *)
Definition defaultTimeout : Z := 10 * 1000000000.

Section ParseClientConfig.

(** [strconv.Atoi] and [time.ParseDuration]: [None] stands for an error. *)
Variable Atoi : string -> option Z.
Variable ParseDuration : string -> option Z.

(** [parseClientConfig]. *)
Definition parseClientConfig (config : gmap string string)
  : config_error + ClientConfig :=
  let clientConfig :=
    mkClientConfig (config_get config cfgEndpointKey)
      (config_get config cfgSecretIDKey) (config_get config cfgSecretKeyKey)
      (config_get config cfgTopicIDKey) defaultRetries defaultTimeout in
  let with_retries : config_error + ClientConfig :=
    match config !! cfgRetriesKey with
    | Some retries =>
        match Atoi retries with
        | None => inl (errParseOption cfgRetriesKey)
        | Some n =>
            if n <? 0 then inl (errInvalidOption cfgRetriesKey n)
            else inr (mkClientConfig (Endpoint clientConfig) (SecretID clientConfig)
                        (SecretKey clientConfig) (TopicID clientConfig) n
                        (Timeout clientConfig))
        end
    | None => inr clientConfig
    end in
  match with_retries with
  | inl e => inl e
  | inr clientConfig =>
      match config !! cfgTimeoutKey with
      | Some timeout =>
          match ParseDuration timeout with
          | None => inl (errParseOption cfgTimeoutKey)
          | Some d =>
              inr (mkClientConfig (Endpoint clientConfig) (SecretID clientConfig)
                     (SecretKey clientConfig) (TopicID clientConfig)
                     (Retries clientConfig) d)
          end
      | None => inr clientConfig
      end
  end.

End ParseClientConfig.

(** [loggerConfig.Validate]: the options, visited in the order [keys], then
    the client's configuration. *)
Definition validateConfig (keys : list string) (c : ClientConfig)
  : option config_error :=
  match validateDriverOptions keys with
  | Some e => Some e
  | None =>
      match ClientConfig_Validate c with
      | Some missing => Some (errClientConfig missing)
      | None => None
      end
  end.

(** ** The logger that sends directly (the earlier [logger.go] of
    [src/unnamed]): no buffer, no worker; [Log] calls the client itself and
    [Close] closes it. *)
Module Direct.

(** [sent] is the record of the calls [SendMessage] received, [client_closes]
    the number of calls of the client's [Close], [filter] the [Match] of
    [cfg.FilterRegex] when there is one. *)
Record TencentCLSLogger : Type := mkLogger {
  sent : list string;
  client_closes : nat;
  formatter : messageFormatter;
  filter : option (string -> bool);
  partialLogsBuffer : partialLogBuffer;
  closed : bool
}.

Definition isClosed (l : TencentCLSLogger) : bool := closed l.

Definition send (l : TencentCLSLogger) (log : string) : TencentCLSLogger :=
  mkLogger (sent l ++ [log]) (client_closes l) (formatter l) (filter l)
    (partialLogsBuffer l) (closed l).

Definition set_partialLogsBuffer (l : TencentCLSLogger) (b : partialLogBuffer)
  : TencentCLSLogger :=
  mkLogger (sent l) (client_closes l) (formatter l) (filter l) b (closed l).

(** [Log]. *)
Definition Log (l : TencentCLSLogger) (log : Message)
  : outcome TencentCLSLogger (option error) :=
  if isClosed l then Returns l (Some errLoggerClosed)
  else
    let rest (l : TencentCLSLogger) (log : Message) :=
      if match filter l with
         | Some matches => negb (matches (Line log))
         | None => false
         end
      then Returns l None
      else
        match Format (formatter l) log with
        | None => Panics "unexpected error"
        | Some text => Returns (send l text) None
        end in
    match PLogMetaData log with
    | Some _ =>
        match Append (partialLogsBuffer l) log with
        | Returns b' (assembledLog, last) =>
            if negb last then Returns (set_partialLogsBuffer l b') None
            else match assembledLog with
                 | Some assembled => rest (set_partialLogsBuffer l b') assembled
                 | None => Panics "nil pointer dereference"
                 end
        | Panics msg => Panics msg
        | Blocks => Blocks
        | OutOfFuel => OutOfFuel
        end
    | None => rest l log
    end.

(** [Close]: an error of the client's [Close] is logged and dropped. *)
Definition Close (l : TencentCLSLogger) : TencentCLSLogger * option error :=
  if isClosed l then (l, None)
  else (mkLogger (sent l) (S (client_closes l)) (formatter l) (filter l)
          (partialLogsBuffer l) true, None).

End Direct.

(** ** Invariants of the logger with its worker *)

(** A call of [Close] that found the logger open is in [l.wg.Wait()] until
    the worker is done. *)
Definition closer_waits (s : system) : Prop :=
  match sys_closer s with
  | CEntry => closed (sys_logger s) = false
  | CReturned _ => pc (sys_worker s) = WDone
  | CSignalled | CWaiting | CPanicked => True
  end.

(** What every step keeps in batching mode: the batch is well formed, the
    byte stream is [bytes], and the worker is done only on an empty
    buffer. *)
Definition batching_inv (bytes : string) (s : system) : Prop :=
  BatchEnabled (cfg (sys_logger s)) = true /\
  batch_ok (batch (sys_worker s)) /\
  stream s = bytes /\
  (pc (sys_worker s) = WDone -> chan_buf (buffer (sys_logger s)) = []).

(** The running count stays under the limit; it is zero on an empty
    batch. *)
Definition count_ok (limit : Z) (w : worker) : Prop :=
  0 <= batchRuneCount w < limit /\
  (batch w = EmptyString -> batchRuneCount w = 0).

(** After the deferred [flush()] on an empty buffer: the buffer stays empty
    and, past the flush, so does the batch. *)
Definition flushed_inv (s : system) : Prop :=
  chan_buf (buffer (sys_logger s)) = [] /\
  pc (sys_worker s) <> WLoop /\
  (pc (sys_worker s) <> WDeferFlush -> batch (sys_worker s) = EmptyString).


(** ** Inputs of the examples *)

(** A logger of the given mode with [msgs] waiting in its buffer. *)
Definition queued (batching : bool) (msgs : list string) : TencentCLSLogger :=
  set_buffer (example_logger 1 batching defaultLogMessageChars defaultBufferCapacity)
    (mkChan msgs defaultBufferCapacity false).

(** A batching worker that has left its loop on a closed, empty buffer with
    "ab" in the batch. *)
Definition leaving_with_ab : system :=
  mkSystem
    (set_buffer (set_closed (example_logger 1 true 10 5) true) (mkChan [] 5 true))
    (mkWorker WDeferFlush (String "a" (String "b" (String newline EmptyString))) 3)
    CWaiting.

(** A direct logger with the template "{log}" and no filter. *)
Definition example_direct : Direct.TencentCLSLogger :=
  Direct.mkLogger [] 0 example_formatter None newPartialLogBuffer false.

(** * Lemmas and theorems *)

Module utf8_facts.
Import utf8.

Lemma byte_val_range (c : ascii) : 0 <= byte_val c < 256.
Proof.
  unfold byte_val. pose proof (N_ascii_bounded c). lia.
Qed.

Lemma mk_byte_val (c : ascii) : mk_byte (byte_val c) = c.
Proof.
  unfold mk_byte, byte_val. rewrite N2Z.id. apply ascii_N_embedding.
Qed.

Lemma byte_val_mk (z : Z) : 0 <= z < 256 -> byte_val (mk_byte z) = z.
Proof.
  intros Hz. unfold mk_byte, byte_val.
  rewrite N_ascii_embedding by lia. lia.
Qed.

Lemma in_range_spec (lo hi b : Z) : in_range lo hi b = true <-> lo <= b <= hi.
Proof. unfold in_range. rewrite andb_true_iff, !Z.leb_le. tauto. Qed.

Lemma in_range_false (lo hi b : Z) : in_range lo hi b = false <-> ~ (lo <= b <= hi).
Proof.
  rewrite <- in_range_spec. destruct (in_range lo hi b); intuition congruence.
Qed.

(** Turns the boolean tests of the hypotheses into arithmetic. *)
Ltac arith_hyps :=
  repeat match goal with
    | H : (_ && _)%bool = true |- _ => apply andb_true_iff in H; destruct H
    | H : (_ && _)%bool = false |- _ => apply andb_false_iff in H; destruct H
    | H : in_range _ _ _ = true |- _ => apply in_range_spec in H
    | H : in_range _ _ _ = false |- _ => apply in_range_false in H
    | H : is_cont _ = true |- _ => apply in_range_spec in H
    | H : is_cont _ = false |- _ => apply in_range_false in H
    | H : (_ <? _) = true |- _ => apply Z.ltb_lt in H
    | H : (_ <? _) = false |- _ => apply Z.ltb_ge in H
    | H : (_ =? _) = true |- _ => apply Z.eqb_eq in H
    | H : (_ =? _) = false |- _ => apply Z.eqb_neq in H
    | H : negb _ = true |- _ => apply negb_true_iff in H
    | H : negb _ = false |- _ => apply negb_false_iff in H
    end.

Ltac split_ifs :=
  repeat match goal with
    | |- context [if ?b then _ else _] => destruct b eqn:?
    | H : context [if ?b then _ else _] |- _ => destruct b eqn:?
    end.

Ltac byte_ranges :=
  repeat match goal with
    | |- context [byte_val ?c] =>
        lazymatch goal with
        | H : 0 <= byte_val c < 256 |- _ => fail
        | _ => pose proof (byte_val_range c)
        end
    end.

Lemma decode_valid (s : string) : valid_rune (fst (DecodeRuneInString s)).
Proof.
  unfold valid_rune, MaxRune.
  destruct s as [|c0 [|c1 [|c2 [|c3 s]]]]; cbn [DecodeRuneInString]; byte_ranges;
    split_ifs; cbn [fst]; unfold RuneError; arith_hyps; lia.
Qed.

Lemma append_cons (c : ascii) (s t : string) :
  (String c s ++ t)%string = String c (s ++ t)%string.
Proof. reflexivity. Qed.

Lemma append_nil (t : string) : (EmptyString ++ t)%string = t.
Proof. reflexivity. Qed.

Local Opaque mk_byte byte_val.
Ltac divmod := Z.div_mod_to_equations; lia.

(** Decides the innermost test of the goal, closing the branch that the
    hypotheses exclude. *)
Ltac step_if :=
  match goal with
  | |- context [if ?b then _ else _] =>
      lazymatch b with
      | context [if _ then _ else _] => fail
      | _ => destruct b eqn:?; arith_hyps; try solve [exfalso; divmod]
      end
  end.

Lemma decode1 (r : rune) (rest : string) :
  0 <= r <= 0x7F ->
  DecodeRuneInString (String (mk_byte r) rest) = (r, 1%nat).
Proof.
  intros Hr. cbn [DecodeRuneInString].
  rewrite byte_val_mk by lia.
  step_if. reflexivity.
Qed.

Lemma decode2 (r : rune) (rest : string) :
  0x80 <= r <= 0x7FF ->
  DecodeRuneInString
    (String (mk_byte (0xC0 + r / 64)) (String (mk_byte (0x80 + r mod 64)) rest))
  = (r, 2%nat).
Proof.
  intros Hr. cbn [DecodeRuneInString].
  rewrite !byte_val_mk by divmod.
  repeat step_if; f_equal; divmod.
Qed.

Lemma decode3 (r : rune) (rest : string) :
  0x800 <= r <= 0xFFFF -> ~ (0xD800 <= r <= 0xDFFF) ->
  DecodeRuneInString
    (String (mk_byte (0xE0 + r / 4096))
       (String (mk_byte (0x80 + (r / 64) mod 64))
          (String (mk_byte (0x80 + r mod 64)) rest)))
  = (r, 3%nat).
Proof.
  intros Hr Hs. cbn [DecodeRuneInString].
  rewrite !byte_val_mk by divmod.
  repeat step_if; f_equal; divmod.
Qed.

Lemma decode4 (r : rune) (rest : string) :
  0x10000 <= r <= 0x10FFFF ->
  DecodeRuneInString
    (String (mk_byte (0xF0 + r / 262144))
       (String (mk_byte (0x80 + (r / 4096) mod 64))
          (String (mk_byte (0x80 + (r / 64) mod 64))
             (String (mk_byte (0x80 + r mod 64)) rest))))
  = (r, 4%nat).
Proof.
  intros Hr. cbn [DecodeRuneInString].
  rewrite !byte_val_mk by divmod.
  repeat step_if; f_equal; divmod.
Qed.

Lemma decode_encode (r : rune) (rest : string) :
  valid_rune r ->
  runes_from 0 (encode_rune r ++ rest) = r :: runes_from 0 rest.
Proof.
  unfold valid_rune, MaxRune. intros [Hr Hs].
  unfold encode_rune, valid_runeb, MaxRune.
  repeat step_if; rewrite ?append_cons, ?append_nil; cbn [runes_from].
  - rewrite decode1 by lia. reflexivity.
  - rewrite decode2 by lia. reflexivity.
  - rewrite decode3 by lia. reflexivity.
  - rewrite decode4 by lia. reflexivity.
Qed.

Lemma runes_of_string_of_runes (rs : list rune) :
  Forall valid_rune rs -> runes_of_string (string_of_runes rs) = rs.
Proof.
  unfold runes_of_string.
  induction 1 as [|r rs Hr _ IH]; [reflexivity|].
  cbn [string_of_runes]. rewrite decode_encode by assumption. now rewrite IH.
Qed.

Lemma runes_from_valid (s : string) (skip : nat) :
  Forall valid_rune (runes_from skip s).
Proof.
  revert skip. induction s as [|c s IH]; intros skip; cbn [runes_from].
  - constructor.
  - destruct skip as [|k]; [|apply IH].
    pose proof (decode_valid (String c s)) as Hv.
    destruct (DecodeRuneInString (String c s)) as [r n].
    constructor; [exact Hv | apply IH].
Qed.

Lemma RuneCount_string_of_runes (s : string) (n m : nat) :
  RuneCountInString (string_of_runes (take n (drop m (runes_of_string s))))
  = Z.of_nat (length (take n (drop m (runes_of_string s)))).
Proof.
  unfold RuneCountInString. rewrite runes_of_string_of_runes; [reflexivity|].
  apply Forall_take, Forall_drop, runes_from_valid.
Qed.

Ltac solve_bytes :=
  repeat match goal with
    | |- String _ _ = String ?c _ =>
        apply f_equal2;
        [etransitivity; [|apply (mk_byte_val c)]; f_equal; divmod|]
    end; try reflexivity.

(** What [DecodeRuneInString] says of a non-empty string: the first byte
    is invalid, or the string starts with the encoding of the rune. *)
Lemma decode_cases (c0 : ascii) (s1 : string) :
  let s := String c0 s1 in
  DecodeRuneInString s = (RuneError, 1%nat) \/
  exists rest,
    s = (encode_rune (fst (DecodeRuneInString s)) ++ rest)%string /\
    runes_from 0 s = fst (DecodeRuneInString s) :: runes_from 0 rest /\
    (valid_from 0 s = true -> valid_from 0 rest = true) /\
    (String.length rest < String.length s)%nat.
Proof.
  intros s. subst s. cbn [runes_from valid_from String.length].
  cbn [DecodeRuneInString]. byte_ranges.
  repeat first
    [ step_if
    | match goal with
      | |- context [match ?s with EmptyString => _ | String _ _ => _ end] =>
          destruct s; byte_ranges
      end ];
    try (left; reflexivity).
  all: right; cbn [fst Nat.sub runes_from valid_from]; exists s1.
  all: split;
    [ symmetry; unfold encode_rune, valid_runeb, MaxRune;
      repeat step_if; rewrite ?append_cons, ?append_nil; solve_bytes
    | split; [reflexivity | split;
        [ intros Hv; apply andb_true_iff in Hv; tauto
        | cbn [String.length]; lia ] ] ].
Qed.

Lemma string_of_runes_of_string_aux (n : nat) (s : string) :
  (String.length s <= n)%nat ->
  valid_from 0 s = true ->
  string_of_runes (runes_from 0 s) = s.
Proof.
  revert s. induction n as [|n IH]; intros s Hlen Hv.
  - destruct s; [reflexivity | cbn [String.length] in Hlen; lia].
  - destruct s as [|c0 s1]; [reflexivity|].
    destruct (decode_cases c0 s1) as [Hbad | (rest & Hs & Hr & Hvr & Hl)].
    + cbn [valid_from] in Hv. rewrite Hbad in Hv. discriminate.
    + rewrite Hr. cbn [string_of_runes].
      rewrite IH; [symmetry; exact Hs | lia | auto].
Qed.

(** A valid UTF-8 string survives the conversion to runes and back. *)
Lemma string_of_runes_of_string (s : string) :
  ValidString s = true -> string_of_runes (runes_of_string s) = s.
Proof. apply (string_of_runes_of_string_aux (String.length s)). lia. Qed.

End utf8_facts.

Import utf8_facts.

Lemma append_assoc (s t u : string) :
  ((s ++ t) ++ u)%string = (s ++ (t ++ u))%string.
Proof.
  induction s as [|c s IH]; [reflexivity|].
  rewrite !append_cons. now rewrite IH.
Qed.

Lemma string_of_runes_app (rs1 rs2 : list utf8.rune) :
  utf8.string_of_runes (rs1 ++ rs2)
  = (utf8.string_of_runes rs1 ++ utf8.string_of_runes rs2)%string.
Proof.
  induction rs1 as [|r rs1 IH]; [reflexivity|].
  cbn [app utf8.string_of_runes]. rewrite IH. now rewrite append_assoc.
Qed.

Lemma join_string_of_runes (cs : list (list utf8.rune)) :
  join (map utf8.string_of_runes cs) = utf8.string_of_runes (concat cs).
Proof.
  induction cs as [|c cs IH]; [reflexivity|].
  cbn [map join concat]. now rewrite string_of_runes_app, IH.
Qed.

Section Chunks.
Variable n : nat.
Hypothesis n_pos : (1 <= n)%nat.

Lemma chunks_concat (fuel : nat) (rs : list utf8.rune) :
  (length rs <= fuel)%nat -> concat (chunks fuel n rs) = rs.
Proof.
  revert rs. induction fuel as [|fuel IH]; intros rs Hlen.
  - destruct rs; [reflexivity | cbn in Hlen; lia].
  - destruct rs as [|r rs]; [reflexivity|].
    cbn [chunks concat]. rewrite IH.
    + apply take_drop.
    + rewrite length_drop. cbn [length] in *. lia.
Qed.

Lemma chunks_bound (fuel : nat) (rs : list utf8.rune) :
  Forall (fun c => (1 <= length c <= n)%nat) (chunks fuel n rs).
Proof.
  revert rs. induction fuel as [|fuel IH]; intros rs; [constructor|].
  destruct rs as [|r rs]; [constructor|].
  cbn [chunks]. constructor; [|apply IH].
  rewrite length_take. cbn [length]. lia.
Qed.

Lemma chunks_fuel (fuel1 fuel2 : nat) (rs : list utf8.rune) :
  (length rs <= fuel1)%nat -> (length rs <= fuel2)%nat ->
  chunks fuel1 n rs = chunks fuel2 n rs.
Proof.
  revert fuel2 rs. induction fuel1 as [|fuel1 IH]; intros fuel2 rs H1 H2.
  - destruct rs; [|cbn in H1; lia]. destruct fuel2; reflexivity.
  - destruct rs as [|r rs]; [destruct fuel2; reflexivity|].
    destruct fuel2 as [|fuel2]; [cbn in H2; lia|].
    cbn [chunks]. f_equal. apply IH; rewrite length_drop; cbn [length] in *; lia.
Qed.
End Chunks.

Lemma select_Forall {A : Type} (P : A -> Prop)
    (cases : list (option (list A))) (default : list A) :
  (forall br, In (Some br) cases -> Forall P br) ->
  Forall P default ->
  Forall P (select cases default).
Proof.
  intros Hc Hd. unfold select.
  destruct (omap id cases) as [|b bs] eqn:E; [exact Hd|].
  rewrite <- E. apply Forall_concat, Forall_forall. intros br Hbr.
  apply list_elem_of_omap in Hbr as (o & Ho & Hid).
  cbn in Hid. subst o. apply Hc, list_elem_of_In, Ho.
Qed.

Lemma set_buffer_twice (l : TencentCLSLogger) (ch ch' : chan) :
  set_buffer (set_buffer l ch) ch' = set_buffer l ch'.
Proof. reflexivity. Qed.

Lemma set_buffer_same (l : TencentCLSLogger) : set_buffer l (buffer l) = l.
Proof. destruct l; reflexivity. Qed.

Lemma send_case_frame (l0 l : TencentCLSLogger) (log : string) (err : option error) :
  (exists ch, l = set_buffer l0 ch) ->
  forall br, In (Some br) [send_case l log (fun l' => [Returns l' None]);
                           closed_case l [Returns l err]] ->
  Forall (frame l0) br.
Proof.
  intros [ch ->] br [H | [H | []]].
  - unfold send_case in H. destruct (chan_send _ _); inversion H; subst;
      repeat constructor. eexists; apply set_buffer_twice.
  - unfold closed_case in H. destruct (closed _); inversion H; subst.
    repeat constructor. eexists; reflexivity.
Qed.

Lemma enqueue_frame (l : TencentCLSLogger) (log : string) :
  Forall (frame l) (enqueue l log).
Proof.
  assert (Hl : exists ch, l = set_buffer l ch)
    by (exists (buffer l); symmetry; apply set_buffer_same).
  unfold enqueue. destruct (MaxBufferSize (cfg l) <=? 0).
  - destruct (chan_send _ _); repeat constructor. eexists; reflexivity.
  - assert (Hretry : forall l1, (exists ch, l1 = set_buffer l ch) ->
      Forall (frame l)
        (select [send_case l1 log (fun l2 => [Returns l2 None]);
                 closed_case l1 [Returns l1 (Some errLoggerClosed)]]
           [Returns l1 (Some errEnqueueAfterDrop)])).
    { intros l1 H1. apply select_Forall.
      - apply send_case_frame, H1.
      - repeat constructor. exact H1. }
    apply select_Forall; [apply send_case_frame, Hl|].
    apply select_Forall; [|apply Hretry, Hl].
    intros br [H | []]. unfold drop_case in H.
    destruct (chan_recv _); inversion H; subst; apply Hretry; [|exact Hl].
    eexists; reflexivity.
Qed.

Lemma and_then_ext (cs : list call) (k1 k2 : TencentCLSLogger -> list call) :
  (forall l', In (Returns l' None) cs -> k1 l' = k2 l') ->
  and_then cs k1 = and_then cs k2.
Proof.
  unfold and_then. induction cs as [|c cs IH]; intros Hk; [reflexivity|].
  cbn [flat_map]. rewrite IH by (intros; apply Hk; now right).
  destruct c as [l' [e|] | | |]; try reflexivity.
  rewrite (Hk l') by now left. reflexivity.
Qed.

Lemma enqueue_maxLogMessageChars (l l' : TencentCLSLogger) (log : string)
    (e : option error) :
  In (Returns l' e) (enqueue l log) ->
  maxLogMessageChars l' = maxLogMessageChars l.
Proof.
  intros Hin. pose proof (enqueue_frame l log) as Hf.
  rewrite Forall_forall in Hf. apply list_elem_of_In, Hf in Hin.
  destruct Hin as [ch ->]. reflexivity.
Qed.

Lemma splitLoop_refines (fuel : nat) :
  forall (l : TencentCLSLogger) (runes : list utf8.rune),
    1 <= maxLogMessageChars l ->
    (length runes < fuel)%nat ->
    splitLoop fuel l runes
    = enqueue_all l (map utf8.string_of_runes
                       (spec_chunks (maxLogMessageChars l) runes)).
Proof.
  unfold spec_chunks.
  induction fuel as [|fuel IH]; intros l runes Hmax Hfuel; [lia|].
  destruct runes as [|r rs]; [reflexivity|].
  cbn [splitLoop]. set (rs0 := r :: rs) in *.
  assert (Hlen : length rs0 = S (length rs)) by reflexivity.
  replace (0 <? Z.of_nat (length rs0)) with true by (symmetry; apply Z.ltb_lt; lia).
  set (n := Z.to_nat (maxLogMessageChars l)).
  assert (Hn : (1 <= n)%nat) by (subst n; lia).
  assert (Htake : forall e,
    e = (if Z.of_nat (length rs0) <? maxLogMessageChars l
         then Z.of_nat (length rs0) else maxLogMessageChars l) ->
    (e <? 0) = false /\ take (Z.to_nat e) rs0 = take n rs0
    /\ drop (Z.to_nat e) rs0 = drop n rs0).
  { intros e ->. destruct (Z.ltb_spec (Z.of_nat (length rs0)) (maxLogMessageChars l)).
    - split; [apply Z.ltb_ge; lia|]. rewrite Nat2Z.id.
      rewrite !take_ge, !drop_ge by (subst n; lia). auto.
    - split; [apply Z.ltb_ge; lia|]. auto. }
  destruct (Htake _ eq_refl) as (-> & -> & ->).
  rewrite Hlen. cbn [chunks]. fold rs0. cbn [map enqueue_all].
  apply and_then_ext. intros l' Hin.
  assert (Hm : maxLogMessageChars l' = maxLogMessageChars l)
    by (eapply enqueue_maxLogMessageChars; eassumption).
  assert (Hd : (length (drop n rs0) <= length rs)%nat)
    by (rewrite length_drop; lia).
  rewrite IH by lia. rewrite Hm. fold n.
  now rewrite (chunks_fuel n Hn (length (drop n rs0)) (length rs)) by lia.
Qed.

Lemma enqueue_no_OutOfFuel (l : TencentCLSLogger) (log : string) :
  Forall no_fuel_out (enqueue l log).
Proof.
  assert (Hsend : forall l1 err br,
    In (Some br) [send_case l1 log (fun l' => [Returns l' None]);
                  closed_case l1 [Returns l1 err]] ->
    Forall no_fuel_out br).
  { intros l1 err br [H | [H | []]].
    - unfold send_case in H. destruct (chan_send _ _); inversion H;
        repeat constructor; discriminate.
    - unfold closed_case in H. destruct (closed _); inversion H.
      repeat constructor; discriminate. }
  assert (Hretry : forall l1,
    Forall no_fuel_out
      (select [send_case l1 log (fun l2 => [Returns l2 None]);
               closed_case l1 [Returns l1 (Some errLoggerClosed)]]
         [Returns l1 (Some errEnqueueAfterDrop)])).
  { intros l1. apply select_Forall; [apply Hsend|].
    repeat constructor; discriminate. }
  unfold enqueue. destruct (MaxBufferSize (cfg l) <=? 0).
  - destruct (chan_send _ _); repeat constructor; discriminate.
  - apply select_Forall; [apply Hsend|].
    apply select_Forall; [|apply Hretry].
    intros br [H | []]. unfold drop_case in H.
    destruct (chan_recv _); inversion H; subst; apply Hretry.
Qed.

Lemma enqueue_all_no_OutOfFuel (logs : list string) (l : TencentCLSLogger) :
  Forall no_fuel_out (enqueue_all l logs).
Proof.
  revert l. induction logs as [|log logs IH]; intros l.
  - repeat constructor; discriminate.
  - cbn [enqueue_all]. unfold and_then.
    pose proof (enqueue_no_OutOfFuel l log) as He.
    induction He as [|c cs Hc _ IHcs]; [constructor|].
    cbn [flat_map]. apply Forall_app. split; [|exact IHcs].
    destruct c as [l' [e|] | | |]; try (repeat constructor; discriminate).
    + apply IH.
    + exfalso. now apply Hc.
Qed.

Lemma append_empty_r (s : string) : (s ++ EmptyString)%string = s.
Proof.
  induction s as [|c s IH]; [reflexivity|].
  now rewrite utf8_facts.append_cons, IH.
Qed.

(** A fragment that is not the last one, for a group under assembly. *)
Lemma Append_more (b : partialLogBuffer) (id : string) (acc m : Message) :
  b !! id = Some acc ->
  is_fragment id false m ->
  Append b m
  = Returns (<[id := set_Line acc (Line acc ++ Line m)]> b) (None, false).
Proof.
  intros Hb (meta & Hm & <- & Hl). unfold Append. now rewrite Hm, Hb, Hl.
Qed.

(** The last fragment, for a group under assembly. *)
Lemma Append_last (b : partialLogBuffer) (id : string) (acc m : Message) :
  b !! id = Some acc ->
  is_fragment id true m ->
  Append b m
  = Returns (delete id b) (Some (set_Line acc (Line acc ++ Line m)), true).
Proof.
  intros Hb (meta & Hm & <- & Hl). unfold Append. rewrite Hm, Hb, Hl.
  now rewrite delete_insert_eq.
Qed.

Lemma Append_seq_assembling (frags : list Message) :
  forall (b : partialLogBuffer) (id : string) (acc final : Message),
    b !! id = Some acc ->
    Forall (is_fragment id false) frags ->
    is_fragment id true final ->
    Append_seq b (frags ++ [final])
    = Returns (delete id b)
        (replicate (length frags) (None, false)
         ++ [(Some (set_Line acc
                      (Line acc ++ join (map Line (frags ++ [final])))), true)]).
Proof.
  induction frags as [|m frags IH]; intros b id acc final Hb Hfr Hfin.
  - cbn [app Append_seq length replicate map join].
    rewrite (Append_last b id acc final Hb Hfin). now rewrite append_empty_r.
  - apply Forall_cons in Hfr as [Hm Hfr].
    cbn [app Append_seq length replicate map join].
    rewrite (Append_more b id acc m Hb Hm).
    rewrite (IH _ id (set_Line acc (Line acc ++ Line m)) final);
      [|apply lookup_insert_eq|assumption|assumption].
    rewrite delete_insert_eq. cbn [Line set_Line].
    now rewrite append_assoc.
Qed.

Lemma Append_first (b : partialLogBuffer) (id : string) (m : Message) :
  b !! id = None ->
  is_fragment id false m ->
  Append b m = Returns (<[id := set_Line (seed m) (Line m)]> b) (None, false).
Proof.
  intros Hb (meta & Hm & <- & Hl). unfold Append. rewrite Hm, Hb, Hl.
  now rewrite insert_insert_eq.
Qed.

Lemma Append_only (b : partialLogBuffer) (id : string) (m : Message) :
  b !! id = None ->
  is_fragment id true m ->
  Append b m = Returns b (Some (set_Line (seed m) (Line m)), true).
Proof.
  intros Hb (meta & Hm & <- & Hl). unfold Append. rewrite Hm, Hb, Hl.
  rewrite insert_insert_eq. now rewrite delete_insert_id.
Qed.

(** C4: fragments of one group, submitted in order to a reassembler that
    holds no state for the group, the terminal fragment last.  Every call
    but the last returns [(nil, false)]; the last returns the assembled
    record, once: its payload is the concatenation of the fragments'
    payloads in order, its fragment metadata is cleared, its other fields
    are those of the first fragment.  The group's entry is gone afterwards:
    the map is the one the sequence started from. *)
Theorem Append_reassembles (b : partialLogBuffer) (id : string)
    (frags : list Message) (final : Message) :
  b !! id = None ->
  Forall (is_fragment id false) frags ->
  is_fragment id true final ->
  exists assembled,
    Append_seq b (frags ++ [final])
    = Returns b (replicate (length frags) (None, false)
                 ++ [(Some assembled, true)])
    /\ Line assembled = join (map Line (frags ++ [final]))
    /\ PLogMetaData assembled = None
    /\ assembled = set_Line (seed (hd final frags)) (Line assembled).
Proof.
  intros Hb Hfr Hfin. destruct frags as [|m frags].
  - exists (set_Line (seed final) (Line final)).
    cbn [app Append_seq length replicate map join hd].
    rewrite (Append_only b id final Hb Hfin), append_empty_r. auto.
  - apply Forall_cons in Hfr as [Hm Hfr].
    eexists. cbn [app Append_seq length replicate map join hd].
    rewrite (Append_first b id m Hb Hm).
    rewrite (Append_seq_assembling frags _ id _ final
               (lookup_insert_eq _ _ _) Hfr Hfin).
    rewrite delete_insert_id by exact Hb.
    split; [reflexivity|]. cbn. auto.
Qed.

(** C9: [Append] panics if and only if the record carries no fragment
    metadata; with the metadata present it returns. *)
Theorem Append_panics_iff (b : partialLogBuffer) (log : Message) :
  (exists msg, Append b log = Panics msg) <-> PLogMetaData log = None.
Proof.
  unfold Append. split.
  - intros [msg H]. destruct (PLogMetaData log) as [meta|]; [|reflexivity].
    destruct (b !! ID meta); destruct (Last meta); discriminate.
  - intros ->. eexists; reflexivity.
Qed.


Lemma tagFunc_known (f : messageFormatter) (msg : Message) (tag : string) :
  known_tag (attrs f) tag -> exists v, tagFunc f msg tag = inr v.
Proof.
  unfold tagFunc. intros [Hin | [v Hv]].
  - cbn in Hin.
    repeat (destruct Hin as [<- | Hin]; [cbn; eexists; reflexivity|]).
    destruct Hin.
  - repeat match goal with
      | |- context [String.eqb tag ?x] =>
          destruct (String.eqb tag x); [eexists; reflexivity|]
      end.
    rewrite Hv. eexists; reflexivity.
Qed.









(** The bounded [enqueue] on an open logger: the message is appended, after
    the oldest element has been evicted if the buffer was full. *)
Lemma enqueue_bounded_open (l : TencentCLSLogger) (log : string) :
  open_bounded l ->
  enqueue l log
  = [Returns
       (set_buffer l
          (mkChan
             ((if Z.of_nat (length (chan_buf (buffer l))) <? chan_cap (buffer l)
               then chan_buf (buffer l)
               else tail (chan_buf (buffer l))) ++ [log])
             (chan_cap (buffer l)) false))
       None].
Proof.
  intros (Hmax & Hcl & Hch & Hcap & Hlen).
  unfold enqueue. replace (MaxBufferSize (cfg l) <=? 0) with false
    by (symmetry; apply Z.leb_gt; exact Hmax).
  unfold select, send_case, closed_case, drop_case, chan_send, chan_recv.
  rewrite Hch, Hcl.
  destruct (Z.ltb_spec (Z.of_nat (length (chan_buf (buffer l)))) (chan_cap (buffer l)))
    as [Hlt | Hge]; [reflexivity|].
  destruct (chan_buf (buffer l)) as [|v rest] eqn:Hbuf; cbn [length] in *; [lia|].
  cbn. rewrite Hcl.
  replace (Z.of_nat (length rest) <? chan_cap (buffer l)) with true
    by (symmetry; apply Z.ltb_lt; lia).
  reflexivity.
Qed.

Lemma enqueue_bounded_open_keeps (l : TencentCLSLogger) (log : string) :
  open_bounded l ->
  exists l', enqueue l log = [Returns l' None] /\ open_bounded l'.
Proof.
  intros Hl. eexists. split; [apply enqueue_bounded_open, Hl|].
  destruct Hl as (Hmax & Hcl & Hch & Hcap & Hlen).
  unfold open_bounded. cbn. repeat split; try assumption.
  destruct (Z.ltb_spec (Z.of_nat (length (chan_buf (buffer l)))) (chan_cap (buffer l))).
  - rewrite length_app. cbn [length]. lia.
  - rewrite length_app. destruct (chan_buf (buffer l)); cbn [length tail] in *; lia.
Qed.

(** C5: bounded buffer of capacity 2, one producer, no receive in between:
    the three calls return [nil]; after the second the buffer holds "a",
    "b", after the third "b", "c" (the oldest element evicted, the insert
    retried once). *)
Theorem enqueue_evicts_oldest (l0 : TencentCLSLogger) :
  0 < MaxBufferSize (cfg l0) ->
  closed l0 = false ->
  exists l1 l2 l3,
    enqueue (WithBufferCapacity 2 l0) "a" = [Returns l1 None] /\
    enqueue l1 "b" = [Returns l2 None] /\
    enqueue l2 "c" = [Returns l3 None] /\
    chan_buf (buffer l2) = ["a"; "b"]%string /\
    chan_buf (buffer l3) = ["b"; "c"]%string.
Proof.
  intros Hmax Hcl.
  assert (Hb : (MaxBufferSize (cfg l0) <=? 0) = false) by (apply Z.leb_gt, Hmax).
  exists (set_buffer l0 (mkChan ["a"%string] 2 false)),
         (set_buffer l0 (mkChan ["a"; "b"]%string 2 false)),
         (set_buffer l0 (mkChan ["b"; "c"]%string 2 false)).
  repeat split;
    unfold enqueue, select, send_case, closed_case, drop_case; cbn;
    rewrite ?Hb, ?Hcl; reflexivity.
Qed.

(** ** The batching worker *)

Lemma flush_empty (l : TencentCLSLogger) (w : worker) :
  batch w = EmptyString -> flush l w = (l, w).
Proof. intros H. unfold flush. now rewrite H. Qed.

(** C6: batching with a limit of 10: receiving "12345" sends nothing (the
    running count is 6); receiving "67890" brings the count to 12 and
    flushes once, the client getting "12345", a newline, "67890", and the
    batch and its count are reset.  A flush of an empty batch, as on a tick
    of the timer, calls nothing. *)
Theorem runBatching_flushes_by_size (l : TencentCLSLogger) :
  maxLogMessageChars l = 10 ->
  BatchEnabled (cfg l) = true ->
  chan_buf (buffer l) = ["12345"; "67890"]%string ->
  (exists s1 s2,
     run [ActWorker PickBuffer] (start l) = Some s1 /\
     client (sys_logger s1) = client l /\
     batchRuneCount (sys_worker s1) = 6 /\
     run [ActWorker PickBuffer; ActWorker PickBuffer] (start l) = Some s2 /\
     client (sys_logger s2) = client l ++ [batch_12345_67890] /\
     batch (sys_worker s2) = EmptyString /\
     batchRuneCount (sys_worker s2) = 0)
  /\
  (forall w, batch w = EmptyString ->
     flush l w = (l, w) /\
     runBatching_step PickTicker l (set_pc w WLoop) = Some (l, set_pc w WLoop)).
Proof.
  intros Hmax Hbatch Hbuf. split.
  - destruct l as [cl fm [at_ tm fr mb be] mx [q cap cd] pb clo].
    cbn in Hmax, Hbatch, Hbuf. subst mx q be.
    do 2 eexists. repeat split; reflexivity.
  - intros w Hw. split; [apply flush_empty, Hw|].
    cbn. rewrite flush_empty by exact Hw. reflexivity.
Qed.

(** ** Close *)

Lemma Close_step_returns_nil (s s' : system) (e : option error) :
  Close_step s = Some s' -> sys_closer s' = CReturned e ->
  sys_closer s = CReturned e \/ e = None.
Proof.
  unfold Close_step. intros H Hr.
  destruct (sys_closer s); try discriminate.
  - destruct (isClosed _); inversion H; subst; cbn in Hr; try discriminate.
    inversion Hr; auto.
  - destruct (close_chan _); inversion H; subst; cbn in Hr; discriminate.
  - destruct (pc _); inversion H; subst; cbn in Hr. inversion Hr; auto.
Qed.

Lemma run_returns_nil (sched : list action) :
  forall (s s' : system) (e : option error),
    run sched s = Some s' -> sys_closer s' = CReturned e ->
    sys_closer s = CReturned e \/ e = None.
Proof.
  induction sched as [|a sched IH]; intros s s' e Hrun Hr.
  - cbn in Hrun. inversion Hrun; subst. now left.
  - cbn [run] in Hrun. destruct (sys_step a s) as [s1|] eqn:Hstep; [|discriminate].
    destruct (IH _ _ _ Hrun Hr) as [H1 | ->]; [|now right].
    destruct a as [p|]; cbn [sys_step] in Hstep.
    + destruct (runner _ _ _) as [[l' w']|]; inversion Hstep; subst.
      now left.
    + eapply Close_step_returns_nil; eassumption.
Qed.

Lemma run_app (sched1 sched2 : list action) (s : system) :
  run (sched1 ++ sched2) s
  = match run sched1 s with
    | Some s1 => run sched2 s1
    | None => None
    end.
Proof.
  revert s. induction sched1 as [|a sched1 IH]; intros s; [reflexivity|].
  cbn [app run]. destruct (sys_step a s); [apply IH | reflexivity].
Qed.

Lemma run_cons (a : action) (sched : list action) (s : system) :
  run (a :: sched) s
  = match sys_step a s with
    | Some s' => run sched s'
    | None => None
    end.
Proof. reflexivity. Qed.

(** Exposes the next step of a schedule. *)
Ltac run_step :=
  cbv beta iota; rewrite run_cons; unfold sys_step at 1;
  cbn [sys_logger sys_worker sys_closer].

Lemma flush_frame (l l' : TencentCLSLogger) (w w' : worker) :
  flush l w = (l', w') -> same_but_client l l' /\ pc w' = pc w.
Proof.
  unfold flush, same_but_client.
  destruct (String.length (batch w) =? 0)%nat.
  - intros H; inversion H; subst. split; [|reflexivity].
    exists (client l'). now destruct l'.
  - intros H; inversion H; subst. split; [|reflexivity].
    eexists; reflexivity.
Qed.

Lemma add_frame (l l' : TencentCLSLogger) (w w' : worker) (log : string) :
  add l w log = (l', w') -> same_but_client l l' /\ pc w' = pc w.
Proof.
  unfold add.
  destruct (maxLogMessageChars l <=? _).
  - intros H. apply flush_frame in H. exact H.
  - intros H; inversion H; subst. split; [|reflexivity].
    exists (client l'). now destruct l'.
Qed.

(** The deferred [drain()] comes to its end once the channel is closed. *)
Lemma drain_terminates (q : list string) :
  forall (l : TencentCLSLogger) (w : worker) (c : cpc),
    chan_buf (buffer l) = q ->
    chan_closed (buffer l) = true ->
    pc w = WDeferDrain ->
    exists l' w',
      run (replicate (S (length q)) (ActWorker PickBuffer)) (mkSystem l w c)
      = Some (mkSystem l' w' c) /\
      pc w' = WDone /\ closed l' = closed l /\
      chan_closed (buffer l') = true.
Proof.
  induction q as [|v q IH]; intros l w c Hq Hcl Hpc.
  - exists l, (set_pc w WDone).
    cbn [length replicate run sys_step sys_logger sys_worker sys_closer].
    unfold runner, runBatching_step, runImmediate_step, chan_recv.
    rewrite Hpc, Hq, Hcl. destruct (BatchEnabled (cfg l)); auto.
  - change (replicate (S (length (v :: q))) (ActWorker PickBuffer))
      with (ActWorker PickBuffer :: replicate (S (length q)) (ActWorker PickBuffer)).
    rewrite run_cons. unfold sys_step at 1.
    cbn [sys_logger sys_worker sys_closer].
    set (ch' := mkChan q (chan_cap (buffer l)) (chan_closed (buffer l))).
    assert (Hstep : exists l1 w1,
      runner PickBuffer l w = Some (l1, w1) /\
      same_but_client (set_buffer l ch') l1 /\ pc w1 = WDeferDrain).
    { unfold runner, runBatching_step, runImmediate_step, chan_recv.
      rewrite Hpc, Hq. fold ch'. destruct (BatchEnabled (cfg l)).
      - destruct (add (set_buffer l ch') w v) as [l1 w1] eqn:Ha.
        apply add_frame in Ha as [Hf Hp].
        exists l1, w1. rewrite Hp. auto.
      - exists (send (set_buffer l ch') v), w.
        repeat split; [eexists; reflexivity | exact Hpc]. }
    destruct Hstep as (l1 & w1 & -> & [cl ->] & Hp1).
    destruct (IH (set_client (set_buffer l ch') cl) w1 c) as (l' & w' & Hr & Hd & Hc & Hb);
      [reflexivity | exact Hcl | exact Hp1 |].
    exists l', w'. cbv beta iota. rewrite Hr. auto.
Qed.

Lemma runner_leaves_loop (l : TencentCLSLogger) (w : worker) :
  closed l = true -> pc w = WLoop ->
  runner PickClosed l w
  = Some (l, set_pc w (if BatchEnabled (cfg l) then WDeferFlush else WDeferDrain)).
Proof.
  intros Hcl Hpc. unfold runner, runBatching_step, runImmediate_step.
  rewrite Hpc, Hcl. now destruct (BatchEnabled (cfg l)).
Qed.

Lemma runner_deferred_flush (p : pick) (l : TencentCLSLogger) (w : worker) :
  BatchEnabled (cfg l) = true -> pc w = WDeferFlush ->
  runner p l w
  = Some (fst (flush l w), set_pc (snd (flush l w)) WDeferDrain).
Proof.
  intros Hb Hpc. unfold runner, runBatching_step. rewrite Hb, Hpc.
  now destruct (flush l w).
Qed.

Lemma Close_step_entry (l : TencentCLSLogger) (w : worker) :
  closed l = false ->
  Close_step (mkSystem l w CEntry) = Some (mkSystem (set_closed l true) w CSignalled).
Proof. intros Hcl. unfold Close_step, isClosed. cbn. now rewrite Hcl. Qed.

Lemma Close_step_signalled (l : TencentCLSLogger) (w : worker) :
  chan_closed (buffer l) = false ->
  Close_step (mkSystem l w CSignalled)
  = Some (mkSystem
            (set_buffer l (mkChan (chan_buf (buffer l)) (chan_cap (buffer l)) true))
            w CWaiting).
Proof. intros Hch. unfold Close_step, close_chan. cbn. now rewrite Hch. Qed.

Lemma Close_step_waiting (l : TencentCLSLogger) (w : worker) :
  pc w = WDone ->
  Close_step (mkSystem l w CWaiting) = Some (mkSystem l w (CReturned None)).
Proof. intros Hpc. unfold Close_step. cbn. now rewrite Hpc. Qed.

(** A first call of [Close] comes back, with [nil]. *)
Lemma Close_returns (l : TencentCLSLogger) (w : worker) :
  closed l = false ->
  chan_closed (buffer l) = false ->
  pc w = WLoop ->
  exists sched s',
    run sched (mkSystem l w CEntry) = Some s' /\
    sys_closer s' = CReturned None /\
    closed (sys_logger s') = true /\
    chan_closed (buffer (sys_logger s')) = true.
Proof.
  intros Hcl Hch Hpc.
  set (l1 := set_buffer (set_closed l true)
               (mkChan (chan_buf (buffer l)) (chan_cap (buffer l)) true)).
  assert (Hstart : run [ActClose; ActClose] (mkSystem l w CEntry)
                   = Some (mkSystem l1 w CWaiting)).
  { run_step. rewrite (Close_step_entry l w Hcl).
    run_step. rewrite (Close_step_signalled (set_closed l true) w Hch).
    reflexivity. }
  assert (Hleave : exists sched l2 w2,
    run sched (mkSystem l1 w CWaiting) = Some (mkSystem l2 w2 CWaiting) /\
    pc w2 = WDeferDrain /\ closed l2 = true /\
    chan_closed (buffer l2) = true).
  { destruct (BatchEnabled (cfg l1)) eqn:Hb.
    - exists [ActWorker PickClosed; ActWorker PickBuffer].
      destruct (flush l1 (set_pc w WDeferFlush)) as [l2 w2] eqn:Hf.
      exists l2, (set_pc w2 WDeferDrain).
      run_step. rewrite (runner_leaves_loop l1 w eq_refl Hpc), Hb.
      run_step. rewrite (runner_deferred_flush PickBuffer l1 (set_pc w WDeferFlush) Hb eq_refl), Hf.
      apply flush_frame in Hf as [[c ->] _]. repeat split; reflexivity.
    - exists [ActWorker PickClosed], l1, (set_pc w WDeferDrain).
      run_step. rewrite (runner_leaves_loop l1 w eq_refl Hpc), Hb.
      repeat split; reflexivity. }
  destruct Hleave as (sched & l2 & w2 & Hrun & Hpc2 & Hcl2 & Hch2).
  destruct (drain_terminates (chan_buf (buffer l2)) l2 w2 CWaiting eq_refl Hch2 Hpc2)
    as (l3 & w3 & Hdrain & Hpc3 & Hcl3 & Hch3).
  exists ([ActClose; ActClose] ++ sched
          ++ replicate (S (length (chan_buf (buffer l2)))) (ActWorker PickBuffer)
          ++ [ActClose]),
         (mkSystem l3 w3 (CReturned None)).
  rewrite run_app, Hstart, run_app, Hrun, run_app, Hdrain.
  run_step. rewrite (Close_step_waiting l3 w3 Hpc3).
  repeat split; cbn; congruence.
Qed.

Lemma runner_closed (p : pick) (l l' : TencentCLSLogger) (w w' : worker) :
  runner p l w = Some (l', w') ->
  closed l' = closed l /\ cfg l' = cfg l.
Proof.
  unfold runner, runBatching_step, runImmediate_step.
  assert (Hadd : forall ch v, add (set_buffer l ch) w v = (l', w') ->
                 closed l' = closed l /\ cfg l' = cfg l).
  { intros ch v Ha. apply add_frame in Ha as [[c ->] _]. auto. }
  assert (Hflush : forall w0 w1, flush l w0 = (l', w1) ->
                   closed l' = closed l /\ cfg l' = cfg l).
  { intros w0 w1 Hf. apply flush_frame in Hf as [[c ->] _]. auto. }
  destruct (BatchEnabled (cfg l)), (pc w); try discriminate;
    try destruct p; try discriminate;
    try (destruct (chan_recv (buffer l)) as [v ch'| |]; try discriminate);
    try (destruct (closed l) eqn:Hc; try discriminate);
    try (destruct (flush l w) as [l1 w1] eqn:Hf);
    intros H; inversion H; subst; auto;
    try (eapply Hadd; eassumption); try (eapply Hflush; eassumption).
Qed.

Lemma sys_step_signalled (a : action) (s s' : system) :
  sys_step a s = Some s' -> closer_signalled s -> closer_signalled s'.
Proof.
  unfold closer_signalled. destruct a as [p|]; cbn [sys_step].
  - destruct (runner _ _ _) as [[l' w']|] eqn:Hr; [|discriminate].
    apply runner_closed in Hr as [Hc _].
    intros H; inversion H; subst; cbn. now rewrite Hc.
  - unfold Close_step, isClosed, close_chan.
    destruct (sys_closer s); try discriminate.
    + destruct (closed (sys_logger s)) eqn:Hc; intros H; inversion H; subst; cbn; auto.
    + destruct (chan_closed _); intros H; inversion H; subst; cbn; auto.
    + destruct (pc _); intros H; inversion H; subst; cbn; auto.
Qed.

Lemma run_signalled (sched : list action) :
  forall s s', run sched s = Some s' -> closer_signalled s -> closer_signalled s'.
Proof.
  induction sched as [|a sched IH]; intros s s' Hrun Hs.
  - cbn in Hrun. now inversion Hrun; subst.
  - cbn [run] in Hrun. destruct (sys_step a s) as [s1|] eqn:Hstep; [|discriminate].
    eapply IH; [eassumption|]. eapply sys_step_signalled; eassumption.
Qed.

Lemma Log_closed (fuel : nat) (l : TencentCLSLogger) (msg : Message) :
  closed l = true -> Log fuel l msg = [Returns l (Some errLoggerClosed)].
Proof. intros Hcl. unfold Log, isClosed. now rewrite Hcl. Qed.

(** C8: a first call of [Close] comes back, and only ever with [nil]; on
    the logger it leaves, a second call returns [nil] at its first step and
    leaves the logger as it is, and [Log] returns the closed error with the
    logger untouched. *)
Theorem Close_idempotent (l : TencentCLSLogger) (w : worker) :
  closed l = false ->
  chan_closed (buffer l) = false ->
  pc w = WLoop ->
  (exists sched s1,
     run sched (mkSystem l w CEntry) = Some s1 /\ sys_closer s1 = CReturned None)
  /\
  (forall sched s1 e,
     run sched (mkSystem l w CEntry) = Some s1 ->
     sys_closer s1 = CReturned e ->
     e = None /\
     Close_step (call_Close s1)
     = Some (mkSystem (sys_logger s1) (sys_worker s1) (CReturned None)) /\
     forall fuel msg,
       Log fuel (sys_logger s1) msg
       = [Returns (sys_logger s1) (Some errLoggerClosed)]).
Proof.
  intros Hcl Hch Hpc. split.
  - destruct (Close_returns l w Hcl Hch Hpc) as (sched & s1 & Hrun & Hr & _).
    exists sched, s1. auto.
  - intros sched s1 e Hrun Hr.
    assert (Hsig : closed (sys_logger s1) = true).
    { pose proof (run_signalled sched _ _ Hrun I) as Hs.
      unfold closer_signalled in Hs. now rewrite Hr in Hs. }
    split; [|split].
    + destruct (run_returns_nil sched _ _ e Hrun Hr) as [H | H];
        [discriminate | exact H].
    + unfold Close_step, call_Close, isClosed. cbn. now rewrite Hsig.
    + intros fuel msg. now apply Log_closed.
Qed.

(** C2, what the code does: once the buffer is closed, [enqueue] in the
    unbounded discipline panics on the send; in the bounded discipline the
    [select] may take the send, which panics, or the closed case, which
    returns the closed error. *)
Theorem enqueue_after_Close (l : TencentCLSLogger) (log : string) :
  closed l = true ->
  chan_closed (buffer l) = true ->
  (MaxBufferSize (cfg l) <= 0 ->
   enqueue l log = [Panics "send on closed channel"]) /\
  (0 < MaxBufferSize (cfg l) ->
   enqueue l log
   = [Panics "send on closed channel"; Returns l (Some errLoggerClosed)]).
Proof.
  intros Hcl Hch. unfold enqueue, select, send_case, closed_case, chan_send.
  rewrite Hch, Hcl. split; intros Hm.
  - now replace (MaxBufferSize (cfg l) <=? 0) with true
      by (symmetry; apply Z.leb_le, Hm).
  - now replace (MaxBufferSize (cfg l) <=? 0) with false
      by (symmetry; apply Z.leb_gt, Hm).
Qed.

(** [Close] leaves the queued messages in the buffer. *)
Lemma Close_step_keeps_buffer (s s' : system) :
  Close_step s = Some s' ->
  chan_buf (buffer (sys_logger s')) = chan_buf (buffer (sys_logger s)).
Proof.
  unfold Close_step, isClosed, close_chan.
  destruct (sys_closer s); try discriminate.
  - destruct (closed _); intros H; inversion H; reflexivity.
  - destruct (chan_closed _); intros H; inversion H; reflexivity.
  - destruct (pc _); intros H; inversion H; reflexivity.
Qed.

(** ** Delivery on [Close], immediate mode *)

Lemma sys_step_immediate (delivered : list string) (a : action) (s s' : system) :
  sys_step a s = Some s' ->
  immediate_inv delivered s -> immediate_inv delivered s'.
Proof.
  unfold immediate_inv. intros Hstep (Hb & Hd & Hdone).
  destruct s as [l w c]. cbn [sys_logger sys_worker] in *.
  destruct a as [p|]; cbn [sys_step sys_logger sys_worker sys_closer] in Hstep.
  - unfold runner in Hstep. rewrite Hb in Hstep.
    unfold runImmediate_step, chan_recv in Hstep.
    destruct (pc w) eqn:Hpc; try discriminate.
    + destruct p; try discriminate.
      * destruct (chan_buf (buffer l)) as [|v rest] eqn:Hq.
        -- destruct (chan_closed (buffer l)); inversion Hstep; subst; cbn.
           rewrite Hq. repeat split; auto.
        -- inversion Hstep; subst; cbn. rewrite Hpc.
           repeat split; auto; [|discriminate].
           now rewrite <- app_assoc.
      * destruct (closed l); inversion Hstep; subst; cbn.
        repeat split; auto. discriminate.
    + destruct (chan_buf (buffer l)) as [|v rest] eqn:Hq.
      * destruct (chan_closed (buffer l)); inversion Hstep; subst; cbn.
        rewrite Hq. repeat split; auto.
      * inversion Hstep; subst; cbn. rewrite Hpc.
        repeat split; auto; [|discriminate].
        now rewrite <- app_assoc.
  - unfold Close_step, isClosed, close_chan in Hstep.
    cbn [sys_logger sys_worker sys_closer] in Hstep.
    destruct c; try discriminate.
    + destruct (closed l); inversion Hstep; subst; cbn; auto.
    + destruct (chan_closed (buffer l)); inversion Hstep; subst; cbn; auto.
    + destruct (pc w); inversion Hstep; subst; cbn; auto.
Qed.

Lemma run_immediate (delivered : list string) (sched : list action) :
  forall s s',
    run sched s = Some s' ->
    immediate_inv delivered s -> immediate_inv delivered s'.
Proof.
  induction sched as [|a sched IH]; intros s s' Hrun Hs.
  - cbn in Hrun. now inversion Hrun; subst.
  - cbn [run] in Hrun. destruct (sys_step a s) as [s1|] eqn:Hstep; [|discriminate].
    eapply IH; [eassumption|]. eapply sys_step_immediate; eassumption.
Qed.

(** In immediate mode, whatever the schedule, once the worker is done the
    client has received every message that was in the buffer, in order. *)
Lemma runImmediate_delivers_all (sched : list action) (s s' : system) :
  BatchEnabled (cfg (sys_logger s)) = false ->
  pc (sys_worker s) = WLoop ->
  run sched s = Some s' ->
  pc (sys_worker s') = WDone ->
  client (sys_logger s')
  = client (sys_logger s) ++ chan_buf (buffer (sys_logger s)).
Proof.
  intros Hb Hpc Hrun Hdone.
  destruct (run_immediate
              (client (sys_logger s) ++ chan_buf (buffer (sys_logger s)))
              sched s s' Hrun) as (_ & Hd & Hq).
  { repeat split; [exact Hb|]. rewrite Hpc. discriminate. }
  rewrite <- Hd, (Hq Hdone). now rewrite app_nil_r.
Qed.

Lemma chunks_Forall (P : utf8.rune -> Prop) (n fuel : nat) :
  forall rs, Forall P rs -> Forall (Forall P) (chunks fuel n rs).
Proof.
  induction fuel as [|fuel IH]; intros rs Hrs; [constructor|].
  destruct rs as [|r rs]; [constructor|].
  cbn [chunks]. constructor.
  - now apply Forall_take.
  - apply IH. now apply Forall_drop.
Qed.

(** The chunks of the runes of [text], as strings: they concatenate to
    [string([]rune(text))] and each holds between one and [n] runes. *)
Lemma spec_chunks_facts (n : Z) (text : string) :
  1 <= n ->
  let cs := map utf8.string_of_runes (spec_chunks n (utf8.runes_of_string text)) in
  join cs = utf8.string_of_runes (utf8.runes_of_string text) /\
  Forall (fun c => 1 <= utf8.RuneCountInString c <= n) cs.
Proof.
  intros Hn cs. subst cs. unfold spec_chunks.
  set (rs := utf8.runes_of_string text).
  assert (Hpos : (1 <= Z.to_nat n)%nat) by lia.
  split.
  - rewrite join_string_of_runes, chunks_concat by (auto; lia). reflexivity.
  - apply Forall_map.
    pose proof (chunks_bound (Z.to_nat n) Hpos (length rs) rs) as Hb.
    pose proof (chunks_Forall utf8.valid_rune (Z.to_nat n) (length rs) rs
                  (runes_from_valid text 0)) as Hv.
    induction Hb as [|c cs' Hc _ IH]; [constructor|].
    apply Forall_cons in Hv as [Hvc Hv].
    constructor; [|apply IH, Hv].
    cbn. unfold utf8.RuneCountInString.
    rewrite runes_of_string_of_runes by exact Hvc. lia.
Qed.

Lemma Log_formats_then_enqueues (fuel : nat) (l : TencentCLSLogger)
    (msg : Message) (text : string) :
  closed l = false ->
  PLogMetaData msg = None ->
  (forall matches, FilterRegex (cfg l) = Some matches -> matches (Line msg) = true) ->
  Format (formatter l) msg = Some text ->
  Log fuel l msg
  = if maxLogMessageChars l <? utf8.RuneCountInString text
    then splitLoop fuel l (utf8.runes_of_string text)
    else enqueue l text.
Proof.
  intros Hcl Hp Hf Hfmt. unfold Log, isClosed. rewrite Hcl, Hp.
  destruct (FilterRegex (cfg l)) as [matches|] eqn:Hm.
  - rewrite (Hf matches eq_refl). cbn [negb]. now rewrite Hfmt.
  - now rewrite Hfmt.
Qed.

(** C3, amended: [Log] splits whatever the mode.  For an open logger and a
    message that is whole and passes the filter, when the formatted text
    holds more runes than the limit (at least 1), [Log] enqueues the
    successive chunks in order, each of 1 to [maxLogMessageChars] runes,
    with batching enabled as with batching disabled. *)
Theorem Log_splits_in_both_modes (l : TencentCLSLogger) (batching : bool)
    (msg : Message) (text : string) (fuel : nat) :
  closed l = false ->
  PLogMetaData msg = None ->
  (forall matches, FilterRegex (cfg l) = Some matches -> matches (Line msg) = true) ->
  Format (formatter l) msg = Some text ->
  1 <= maxLogMessageChars l < utf8.RuneCountInString text ->
  (length (utf8.runes_of_string text) < fuel)%nat ->
  let lb := set_BatchEnabled l batching in
  let cs := map utf8.string_of_runes
              (spec_chunks (maxLogMessageChars l) (utf8.runes_of_string text)) in
  BatchEnabled (cfg lb) = batching /\
  Log fuel lb msg = enqueue_all lb cs /\
  join cs = utf8.string_of_runes (utf8.runes_of_string text) /\
  Forall (fun c => 1 <= utf8.RuneCountInString c <= maxLogMessageChars l) cs.
Proof.
  intros Hcl Hp Hf Hfmt Hmax Hfuel lb cs.
  split; [reflexivity|]. split.
  - rewrite (Log_formats_then_enqueues fuel lb msg text Hcl Hp Hf Hfmt).
    change (maxLogMessageChars lb) with (maxLogMessageChars l).
    replace (maxLogMessageChars l <? utf8.RuneCountInString text) with true
      by (symmetry; apply Z.ltb_lt; lia).
    now rewrite splitLoop_refines by (cbn; lia).
  - apply spec_chunks_facts. lia.
Qed.

(** With a limit of zero the loop never comes back. *)
Lemma splitLoop_zero_diverges (fuel : nat) :
  forall (l : TencentCLSLogger) (runes : list utf8.rune),
    open_bounded l ->
    maxLogMessageChars l = 0 ->
    runes <> [] ->
    splitLoop fuel l runes = [OutOfFuel].
Proof.
  induction fuel as [|fuel IH]; intros l runes Hl Hmax Hne; [reflexivity|].
  destruct runes as [|r rs]; [congruence|].
  cbn [splitLoop]. rewrite Hmax.
  replace (0 <? Z.of_nat (length (r :: rs))) with true
    by (symmetry; apply Z.ltb_lt; cbn [length]; lia).
  replace (Z.of_nat (length (r :: rs)) <? 0) with false
    by (symmetry; apply Z.ltb_ge; lia).
  cbv beta iota zeta.
  cbn [Z.ltb Z.compare Z.to_nat take drop utf8.string_of_runes].
  destruct (enqueue_bounded_open_keeps l EmptyString Hl) as (l' & He & Hl').
  change (Z.to_nat 0) with 0%nat.
  change (utf8.string_of_runes (take 0 (r :: rs))) with EmptyString.
  change (drop 0 (r :: rs)) with (r :: rs).
  rewrite He. cbn [and_then flat_map].
  assert (Hm : maxLogMessageChars l' = 0).
  { rewrite <- Hmax. eapply enqueue_maxLogMessageChars.
    rewrite He. now left. }
  rewrite (IH l' (r :: rs) Hl' Hm Hne). reflexivity.
Qed.

(** With a negative limit the slice expression panics. *)
Lemma splitLoop_negative_panics (fuel : nat) (l : TencentCLSLogger)
    (runes : list utf8.rune) :
  maxLogMessageChars l < 0 ->
  runes <> [] ->
  splitLoop (S fuel) l runes = [Panics "slice bounds out of range"].
Proof.
  intros Hmax Hne. destruct runes as [|r rs]; [congruence|].
  cbn [splitLoop].
  replace (0 <? Z.of_nat (length (r :: rs))) with true
    by (symmetry; apply Z.ltb_lt; cbn [length]; lia).
  replace (Z.of_nat (length (r :: rs)) <? maxLogMessageChars l) with false
    by (symmetry; apply Z.ltb_ge; lia).
  now replace (maxLogMessageChars l <? 0) with true
    by (symmetry; apply Z.ltb_lt; lia).
Qed.

(** C10, amended: with a limit of at least 1 the loop comes back within
    [len(runes) + 1] iterations; it enqueues in order chunks of 1 to
    [maxLogMessageChars] runes that concatenate to [string([]rune(text))],
    which is the text itself when the text is valid UTF-8.
    [WithMaxLogMessageChars] stores any value; with the value 0, on an open
    bounded logger, the loop never comes back. *)
Theorem splitLoop_terminates_and_chunks (l : TencentCLSLogger) (text : string)
    (fuel : nat) :
  1 <= maxLogMessageChars l ->
  (length (utf8.runes_of_string text) < fuel)%nat ->
  let cs := map utf8.string_of_runes
              (spec_chunks (maxLogMessageChars l) (utf8.runes_of_string text)) in
  splitLoop fuel l (utf8.runes_of_string text) = enqueue_all l cs /\
  ~ In OutOfFuel (splitLoop fuel l (utf8.runes_of_string text)) /\
  join cs = utf8.string_of_runes (utf8.runes_of_string text) /\
  (utf8.ValidString text = true -> join cs = text) /\
  Forall (fun c => 1 <= utf8.RuneCountInString c <= maxLogMessageChars l) cs /\
  (forall n l0, maxLogMessageChars (WithMaxLogMessageChars n l0) = n) /\
  (forall budget l0 runes,
     open_bounded l0 -> runes <> [] ->
     splitLoop budget (WithMaxLogMessageChars 0 l0) runes = [OutOfFuel]).
Proof.
  intros Hmax Hfuel cs.
  assert (Href : splitLoop fuel l (utf8.runes_of_string text) = enqueue_all l cs)
    by (apply splitLoop_refines; assumption).
  destruct (spec_chunks_facts (maxLogMessageChars l) text Hmax) as [Hjoin Hbound].
  fold cs in Hjoin, Hbound.
  split; [exact Href|]. split; [|split; [exact Hjoin|split; [|split; [|split]]]].
  - rewrite Href. intros Hin.
    pose proof (enqueue_all_no_OutOfFuel cs l) as Hno.
    rewrite Forall_forall in Hno. apply list_elem_of_In in Hin.
    now apply Hno in Hin.
  - intros Hv. rewrite Hjoin. now apply string_of_runes_of_string.
  - exact Hbound.
  - reflexivity.
  - intros budget l0 runes Hl0 Hne.
    apply splitLoop_zero_diverges; [exact Hl0 | reflexivity | exact Hne].
Qed.


(** ** Shutdown of the batching worker *)

(** C1, what the code does: five messages are in the buffer of a batching
    logger and [Close] is called.  The worker's [select] takes the case
    [<-l.closed]; the deferred [flush()] runs first, on an empty batch; the
    deferred [drain()] then moves the five messages into the batch, which
    stays under the limit; nothing flushes it.  [Close] returns [nil], the
    buffer is empty and the client has received nothing. *)
Theorem runBatching_Close_loses_batch :
  exists l s',
    enqueue_all
      (example_logger 1 true defaultLogMessageChars defaultBufferCapacity)
      five_messages = [Returns l None] /\
    chan_buf (buffer l) = five_messages /\
    run closed_first (start l) = Some s' /\
    sys_closer s' = CReturned None /\
    pc (sys_worker s') = WDone /\
    chan_buf (buffer (sys_logger s')) = [] /\
    batch (sys_worker s')
    = join (map (fun m => (m ++ String newline EmptyString)%string) five_messages) /\
    client (sys_logger s') = [].
Proof.
  exists (set_buffer
            (example_logger 1 true defaultLogMessageChars defaultBufferCapacity)
            (mkChan five_messages defaultBufferCapacity false)).
  exists (mkSystem
            (set_buffer
               (set_closed
                  (example_logger 1 true defaultLogMessageChars defaultBufferCapacity)
                  true)
               (mkChan [] defaultBufferCapacity true))
            (mkWorker WDone
               (join (map (fun m => (m ++ String newline EmptyString)%string)
                        five_messages))
               15)
            (CReturned None)).
  repeat split; vm_compute; reflexivity.
Qed.

(** The same [Close] when the worker's [select] keeps taking the buffer
    until it is closed and empty: the deferred [flush()] then sends the
    batch. *)
Lemma runBatching_Close_delivers_buffer_first :
  exists s',
    run buffer_first
      (start (set_buffer
                (example_logger 1 true defaultLogMessageChars defaultBufferCapacity)
                (mkChan five_messages defaultBufferCapacity false)))
    = Some s' /\
    sys_closer s' = CReturned None /\
    client (sys_logger s')
    = [("m1" ++ String newline ("m2" ++ String newline ("m3" ++ String newline
         ("m4" ++ String newline "m5"))))%string].
Proof.
  eexists. split; [vm_compute; reflexivity|]. split; reflexivity.
Qed.

(** ** The theorems at concrete inputs *)

Lemma Append_reassembles_witness :
  newPartialLogBuffer !! "g"%string = None /\
  exists assembled,
    Append_seq newPartialLogBuffer
      ([fragment "g" "ab" false; fragment "g" "cd" false]
       ++ [fragment "g" "ef" true])
    = Returns newPartialLogBuffer
        (replicate 2 (None, false) ++ [(Some assembled, true)]) /\
    Line assembled = "abcdef"%string /\
    PLogMetaData assembled = None.
Proof.
  split; [reflexivity|].
  destruct (Append_reassembles newPartialLogBuffer "g"
              [fragment "g" "ab" false; fragment "g" "cd" false]
              (fragment "g" "ef" true))
    as (assembled & Hseq & Hline & Hmeta & _).
  - reflexivity.
  - repeat constructor; eexists; repeat split; reflexivity.
  - eexists; repeat split; reflexivity.
  - exists assembled. split; [exact Hseq|]. split; [exact Hline | exact Hmeta].
Defined.

Lemma enqueue_evicts_oldest_witness :
  0 < MaxBufferSize (cfg (example_logger 1 false 4096 10000)) /\
  closed (example_logger 1 false 4096 10000) = false /\
  exists l1 l2 l3,
    enqueue (WithBufferCapacity 2 (example_logger 1 false 4096 10000)) "a"
    = [Returns l1 None] /\
    enqueue l1 "b" = [Returns l2 None] /\
    enqueue l2 "c" = [Returns l3 None] /\
    chan_buf (buffer l2) = ["a"; "b"]%string /\
    chan_buf (buffer l3) = ["b"; "c"]%string.
Proof.
  split; [reflexivity|]. split; [reflexivity|].
  apply enqueue_evicts_oldest; reflexivity.
Defined.

Lemma runBatching_flushes_by_size_witness :
  exists s2,
    run [ActWorker PickBuffer; ActWorker PickBuffer]
      (start (set_buffer (example_logger 1 true 10 5)
                (mkChan ["12345"; "67890"]%string 5 false)))
    = Some s2 /\
    client (sys_logger s2) = [batch_12345_67890].
Proof.
  destruct (runBatching_flushes_by_size
              (set_buffer (example_logger 1 true 10 5)
                 (mkChan ["12345"; "67890"]%string 5 false))
              eq_refl eq_refl eq_refl)
    as [(s1 & s2 & _ & _ & _ & Hrun & Hclient & _) _].
  exists s2. split; [exact Hrun | exact Hclient].
Defined.


Lemma Close_idempotent_witness :
  closed (example_logger 1 true 4096 10) = false /\
  exists sched s1,
    run sched (mkSystem (example_logger 1 true 4096 10) start_worker CEntry)
    = Some s1 /\
    sys_closer s1 = CReturned None.
Proof.
  split; [reflexivity|].
  exact (proj1 (Close_idempotent (example_logger 1 true 4096 10) start_worker
                  eq_refl eq_refl eq_refl)).
Defined.

Lemma enqueue_after_Close_witness :
  closed closed_unbounded_logger = true /\
  chan_closed (buffer closed_unbounded_logger) = true /\
  enqueue closed_unbounded_logger "x" = [Panics "send on closed channel"].
Proof.
  split; [reflexivity|]. split; [reflexivity|].
  apply (enqueue_after_Close closed_unbounded_logger "x" eq_refl eq_refl).
  discriminate.
Defined.

Lemma Log_splits_in_both_modes_witness :
  Format (formatter (example_logger 1 false 2 10)) (plain "abcde")
  = Some "abcde"%string /\
  Log 6 (set_BatchEnabled (example_logger 1 false 2 10) true) (plain "abcde")
  = enqueue_all (set_BatchEnabled (example_logger 1 false 2 10) true)
      (map utf8.string_of_runes
         (spec_chunks 2 (utf8.runes_of_string "abcde"))).
Proof.
  split; [reflexivity|].
  apply (Log_splits_in_both_modes (example_logger 1 false 2 10) true
           (plain "abcde") "abcde" 6).
  - reflexivity.
  - reflexivity.
  - intros matches H. discriminate H.
  - reflexivity.
  - split; [discriminate | reflexivity].
  - vm_compute. lia.
Defined.

Lemma splitLoop_terminates_and_chunks_witness :
  1 <= maxLogMessageChars (WithMaxLogMessageChars 2 (example_logger 1 false 4096 10)) /\
  splitLoop 6 (WithMaxLogMessageChars 2 (example_logger 1 false 4096 10))
    (utf8.runes_of_string "abcde")
  = enqueue_all (WithMaxLogMessageChars 2 (example_logger 1 false 4096 10))
      (map utf8.string_of_runes
         (spec_chunks 2 (utf8.runes_of_string "abcde"))).
Proof.
  split; [discriminate|].
  apply (splitLoop_terminates_and_chunks
           (WithMaxLogMessageChars 2 (example_logger 1 false 4096 10)) "abcde" 6).
  - discriminate.
  - vm_compute. lia.
Defined.

(** ** Where the specification and the code part *)

(** C3, as stated, fails: with batching enabled and a limit of 2, [Log]
    enqueues "abcde" as "ab", "cd", "e" and not as one message. *)
Lemma Log_batching_presplits :
  BatchEnabled (cfg (example_logger 1 true 2 10)) = true /\
  (exists l',
     Log 6 (example_logger 1 true 2 10) (plain "abcde") = [Returns l' None] /\
     chan_buf (buffer l') = ["ab"; "cd"; "e"]%string) /\
  Log 6 (example_logger 1 true 2 10) (plain "abcde")
  <> enqueue (example_logger 1 true 2 10) "abcde".
Proof.
  split; [reflexivity|]. split.
  - eexists. split; [vm_compute; reflexivity | reflexivity].
  - vm_compute. intros H. discriminate H.
Qed.


(** C10, as stated, fails: with a limit of 1 the text made of the byte 0xFF
    and "a" is enqueued as the encoding of U+FFFD and "a", which do not
    concatenate to the text. *)
Lemma splitLoop_replaces_invalid_bytes :
  1 <= maxLogMessageChars (WithMaxLogMessageChars 1 (example_logger 1 false 4096 10)) /\
  exists l',
    splitLoop 3 (WithMaxLogMessageChars 1 (example_logger 1 false 4096 10))
      (utf8.runes_of_string invalid_text)
    = [Returns l' None] /\
    chan_buf (buffer l') = [replacement_char; "a"%string] /\
    join (chan_buf (buffer l')) <> invalid_text.
Proof.
  split; [discriminate|].
  eexists. split; [vm_compute; reflexivity|]. split; [reflexivity|].
  vm_compute. intros H. discriminate H.
Qed.

(** ** The two enqueue disciplines *)

(** X1: [enqueue] with [MaxBufferSize > 0] on an open logger whose buffer
    respects its capacity never blocks and never fails: it returns [nil],
    changes the buffer only, keeps its capacity, and the buffer afterwards is
    the old one (without its oldest message when it was full) followed by
    the new message. *)
Theorem enqueue_bounded_never_blocks (l : TencentCLSLogger) (log : string) :
  open_bounded l ->
  exists l',
    enqueue l log = [Returns l' None] /\
    open_bounded l' /\
    l' = set_buffer l (buffer l') /\
    chan_cap (buffer l') = chan_cap (buffer l) /\
    chan_buf (buffer l')
    = (if Z.of_nat (length (chan_buf (buffer l))) <? chan_cap (buffer l)
       then chan_buf (buffer l)
       else tail (chan_buf (buffer l))) ++ [log].
Proof.
  intros Hl. destruct (enqueue_bounded_open_keeps l log Hl) as (l' & He & Hl').
  exists l'. split; [exact He|]. split; [exact Hl'|].
  rewrite (enqueue_bounded_open l log Hl) in He.
  inversion He; subst l'. repeat split; reflexivity.
Qed.

Lemma enqueue_all_bounded (logs : list string) :
  forall l : TencentCLSLogger,
    open_bounded l ->
    exists l',
      enqueue_all l logs = [Returns l' None] /\
      open_bounded l' /\
      chan_cap (buffer l') = chan_cap (buffer l) /\
      chan_buf (buffer l')
      = drop (length (chan_buf (buffer l) ++ logs) - Z.to_nat (chan_cap (buffer l)))
          (chan_buf (buffer l) ++ logs).
Proof.
  induction logs as [|log logs IH]; intros l Hl.
  - exists l. split; [reflexivity|]. split; [exact Hl|]. split; [reflexivity|].
    destruct Hl as (_ & _ & _ & Hcap & Hlen).
    rewrite app_nil_r.
    replace (length (chan_buf (buffer l)) - Z.to_nat (chan_cap (buffer l)))%nat
      with 0%nat by lia.
    reflexivity.
  - cbn [enqueue_all].
    pose proof (enqueue_bounded_open l log Hl) as He.
    destruct (enqueue_bounded_open_keeps l log Hl) as (l1 & He1 & Hl1).
    rewrite He in He1. inversion He1 as [Heq]. clear He1.
    rewrite He. cbn [and_then flat_map]. rewrite app_nil_r.
    rewrite Heq.
    destruct (IH l1 Hl1) as (l' & Hall & Hl' & Hcap' & Hbuf').
    exists l'. split; [exact Hall|]. split; [exact Hl'|].
    assert (Hc1 : chan_cap (buffer l1) = chan_cap (buffer l)) by (now subst l1).
    split; [congruence|].
    rewrite Hbuf', Hc1.
    destruct Hl as (_ & _ & _ & Hcap & Hlen).
    assert (Hb1 : chan_buf (buffer l1)
                  = (if Z.of_nat (length (chan_buf (buffer l))) <? chan_cap (buffer l)
                     then chan_buf (buffer l)
                     else tail (chan_buf (buffer l))) ++ [log]) by (now subst l1).
    rewrite Hb1.
    destruct (Z.ltb_spec (Z.of_nat (length (chan_buf (buffer l)))) (chan_cap (buffer l)))
      as [Hlt | Hge].
    + now rewrite <- app_assoc.
    + destruct (chan_buf (buffer l)) as [|v rest]; cbn [length] in *; [lia|].
      cbn [tail]. rewrite <- !app_assoc. cbn [app length].
      assert (Hfull : (Z.to_nat (chan_cap (buffer l))
                       <= length (rest ++ log :: logs))%nat)
        by (rewrite length_app; cbn [length]; lia).
      replace (S (length (rest ++ log :: logs)) - Z.to_nat (chan_cap (buffer l)))%nat
        with (S (length (rest ++ log :: logs) - Z.to_nat (chan_cap (buffer l))))
        by lia.
      reflexivity.
Qed.




(** X2: any number of bounded [enqueue] calls on an open logger all return
    [nil], and the buffer then holds the newest messages, as many as the
    capacity allows, in their order of arrival. *)
Theorem enqueue_all_keeps_newest (l : TencentCLSLogger) (logs : list string) :
  open_bounded l ->
  exists l',
    enqueue_all l logs = [Returns l' None] /\
    chan_buf (buffer l')
    = drop (length (chan_buf (buffer l) ++ logs) - Z.to_nat (chan_cap (buffer l)))
        (chan_buf (buffer l) ++ logs) /\
    Z.of_nat (length (chan_buf (buffer l'))) <= chan_cap (buffer l).
Proof.
  intros Hl. destruct (enqueue_all_bounded logs l Hl) as (l' & Hall & Hl' & Hc & Hb).
  exists l'. split; [exact Hall|]. split; [exact Hb|].
  destruct Hl' as (_ & _ & _ & _ & Hlen). now rewrite <- Hc.
Qed.

(** X4: whatever [enqueue] returns, the client, the closed signal, the
    configuration, the message limit, the partial-log buffer and the
    formatter of the logger are what they were. *)
Theorem enqueue_touches_only_buffer (l l' : TencentCLSLogger) (log : string)
    (e : option error) :
  In (Returns l' e) (enqueue l log) ->
  client l' = client l /\ closed l' = closed l /\ cfg l' = cfg l /\
  maxLogMessageChars l' = maxLogMessageChars l /\
  partialLogsBuffer l' = partialLogsBuffer l /\ formatter l' = formatter l.
Proof.
  intros Hin. pose proof (enqueue_frame l log) as Hf.
  rewrite Forall_forall in Hf. apply list_elem_of_In, Hf in Hin.
  destruct Hin as [ch ->]. repeat split; reflexivity.
Qed.

(** ** The batching worker: what is on its way to the sink *)

Lemma last_byte_snoc (s : string) (c : ascii) :
  last_byte (s ++ String c EmptyString) = Some c.
Proof.
  induction s as [|c0 s IH]; [reflexivity|].
  rewrite append_cons. cbn [last_byte].
  destruct s; [reflexivity|]. rewrite append_cons in *. exact IH.
Qed.

Lemma truncate_last_snoc (s : string) (c : ascii) :
  truncate_last (s ++ String c EmptyString) = s.
Proof.
  induction s as [|c0 s IH]; [reflexivity|].
  rewrite append_cons. cbn [truncate_last].
  destruct s; [reflexivity|]. rewrite append_cons in *. now rewrite IH.
Qed.

Lemma length_snoc (s : string) (c : ascii) :
  (String.length (s ++ String c EmptyString) =? 0)%nat = false.
Proof. destruct s; reflexivity. Qed.

Lemma join_app (a b : list string) : join (a ++ b) = (join a ++ join b)%string.
Proof.
  induction a as [|x a IH]; [reflexivity|].
  cbn [app join]. now rewrite IH, append_assoc.
Qed.

Lemma lines_app (a b : list string) : lines (a ++ b) = (lines a ++ lines b)%string.
Proof. unfold lines. now rewrite map_app, join_app. Qed.

Lemma lines_cons (m : string) (q : list string) :
  lines (m :: q) = (m ++ String newline (lines q))%string.
Proof.
  unfold lines. cbn [map join]. rewrite append_assoc.
  now rewrite append_cons, append_nil.
Qed.

Lemma lines_one (m : string) : lines [m] = (m ++ String newline EmptyString)%string.
Proof. now rewrite lines_cons. Qed.

(** What [flush] does to a well-formed batch. *)
Lemma flush_stream (l l' : TencentCLSLogger) (w w' : worker) :
  batch_ok (batch w) ->
  flush l w = (l', w') ->
  (lines (client l') ++ batch w')%string = (lines (client l) ++ batch w)%string /\
  batch w' = EmptyString /\
  (batch w <> EmptyString -> batchRuneCount w' = 0) /\
  (batch w = EmptyString -> w' = w) /\
  l' = set_client l (client l').
Proof.
  intros Hok Hf. unfold flush in Hf. destruct Hok as [He | [s Hs]].
  - rewrite He in Hf. cbn in Hf. inversion Hf; subst.
    repeat split; auto; try congruence. now destruct l'.
  - rewrite Hs, length_snoc, last_byte_snoc in Hf.
    rewrite Ascii.eqb_refl in Hf. cbn [batch] in Hf.
    rewrite truncate_last_snoc in Hf. inversion Hf; subst.
    cbn [client send set_client batch batchRuneCount].
    rewrite lines_app, lines_one, Hs.
    rewrite !append_assoc, append_empty_r.
    split; [reflexivity|]. split; [reflexivity|]. split; [reflexivity|].
    split; [|reflexivity].
    intros H. rewrite H in Hs. destruct s; discriminate.
Qed.

Lemma flush_pc (l : TencentCLSLogger) (w : worker) : pc (snd (flush l w)) = pc w.
Proof. unfold flush. now destruct (_ =? _)%nat. Qed.

(** What [add] does to a well-formed batch. *)
Lemma add_stream (l l' : TencentCLSLogger) (w w' : worker) (m : string) :
  batch_ok (batch w) ->
  add l w m = (l', w') ->
  (lines (client l') ++ batch w')%string
  = (lines (client l) ++ batch w ++ m ++ String newline EmptyString)%string /\
  batch_ok (batch w') /\
  l' = set_client l (client l') /\
  pc w' = pc w.
Proof.
  intros Hok Ha. unfold add in Ha.
  set (w1 := mkWorker (pc w) (batch w ++ m ++ String newline EmptyString)%string
               (batchRuneCount w + (utf8.RuneCountInString m + 1))) in *.
  assert (Hok1 : batch_ok (batch w1)).
  { right. exists (batch w ++ m)%string. cbn. now rewrite append_assoc. }
  destruct (maxLogMessageChars l <=? batchRuneCount w1).
  - pose proof (flush_pc l w1) as Hpc. rewrite Ha in Hpc. cbn in Hpc.
    destruct (flush_stream l l' w1 w' Hok1 Ha) as (Hs & He & _ & _ & Hl).
    split; [exact Hs|]. split; [left; exact He|]. split; [exact Hl | exact Hpc].
  - inversion Ha; subst. split; [reflexivity|]. split; [exact Hok1|].
    split; [now destruct l' | reflexivity].
Qed.

(** The bytes on their way for a logger and a worker. *)
Lemma stream_unfold (l : TencentCLSLogger) (w : worker) (c : cpc) :
  stream (mkSystem l w c)
  = (lines (client l) ++ batch w ++ lines (chan_buf (buffer l)))%string.
Proof. reflexivity. Qed.

Lemma flush_step_stream (l l1 : TencentCLSLogger) (w w1 : worker) (c : cpc) :
  batch_ok (batch w) ->
  flush l w = (l1, w1) ->
  batch_ok (batch w1) /\
  stream (mkSystem l1 w1 c) = stream (mkSystem l w c) /\
  l1 = set_client l (client l1) /\ pc w1 = pc w.
Proof.
  intros Hok Hf.
  pose proof (flush_pc l w) as Hpc. rewrite Hf in Hpc. cbn in Hpc.
  destruct (flush_stream _ _ _ _ Hok Hf) as (Hs & He & _ & _ & Hl).
  split; [left; exact He|]. split; [|split; [exact Hl | exact Hpc]].
  rewrite !stream_unfold, Hl. cbn [client set_client buffer chan_buf].
  now rewrite <- !append_assoc, Hs.
Qed.

Lemma recv_step_stream (l l1 : TencentCLSLogger) (w w1 : worker) (c : cpc)
    (v : string) (rest : list string) :
  batch_ok (batch w) ->
  chan_buf (buffer l) = v :: rest ->
  add (set_buffer l (mkChan rest (chan_cap (buffer l)) (chan_closed (buffer l))))
    w v = (l1, w1) ->
  batch_ok (batch w1) /\
  stream (mkSystem l1 w1 c) = stream (mkSystem l w c) /\
  (exists cl, l1 = set_client
                     (set_buffer l (mkChan rest (chan_cap (buffer l))
                                      (chan_closed (buffer l)))) cl) /\
  pc w1 = pc w.
Proof.
  intros Hok Hq Ha.
  destruct (add_stream _ _ _ _ _ Hok Ha) as (Hs & Hok' & Hl & Hpc).
  split; [exact Hok'|]. split; [|split; [eexists; exact Hl | exact Hpc]].
  rewrite !stream_unfold, Hl. cbn [client set_client buffer set_buffer chan_buf].
  rewrite <- append_assoc, Hs. cbn [client set_buffer].
  rewrite Hq, lines_cons, !append_assoc.
  now rewrite append_cons, append_nil.
Qed.

(** One step of the batching worker keeps the byte stream. *)
Lemma runBatching_step_stream (p : pick) (l l' : TencentCLSLogger)
    (w w' : worker) (c : cpc) :
  batch_ok (batch w) ->
  runBatching_step p l w = Some (l', w') ->
  batch_ok (batch w') /\
  stream (mkSystem l' w' c) = stream (mkSystem l w c) /\
  cfg l' = cfg l /\ maxLogMessageChars l' = maxLogMessageChars l /\
  closed l' = closed l /\
  (pc w' = WDone -> chan_buf (buffer l') = []).
Proof.
  intros Hok Hstep. unfold runBatching_step, chan_recv in Hstep.
  destruct (pc w) eqn:Hpc.
  - destruct p.
    + destruct (chan_buf (buffer l)) as [|v rest] eqn:Hq.
      * destruct (chan_closed (buffer l)); inversion Hstep; subst.
        repeat split; auto; try discriminate.
      * destruct (recv_step_stream l l' w w' c v rest Hok Hq)
          as (H1 & H2 & [cl H3] & H4); [now inversion Hstep|].
        subst l'. repeat split; auto; try (intros Hd; congruence).
    + destruct (flush_step_stream l l' w w' c Hok)
        as (H1 & H2 & H3 & H4); [now inversion Hstep|].
      rewrite H3. repeat split; auto; try (intros Hd; congruence).
      now rewrite <- H3.
    + destruct (closed l) eqn:Hc; inversion Hstep; subst.
      repeat split; auto; try discriminate.
  - destruct (flush l w) as [l1 w1] eqn:Hf. inversion Hstep; subst.
    destruct (flush_step_stream l l' w w1 c Hok Hf) as (H1 & H2 & H3 & H4).
    rewrite H3. repeat split; auto; try discriminate.
    rewrite <- H3. rewrite <- H2. reflexivity.
  - destruct (chan_buf (buffer l)) as [|v rest] eqn:Hq.
    + destruct (chan_closed (buffer l)); inversion Hstep; subst.
      repeat split; auto.
    + destruct (recv_step_stream l l' w w' c v rest Hok Hq)
        as (H1 & H2 & [cl H3] & H4); [now inversion Hstep|].
      subst l'. repeat split; auto; try (intros Hd; congruence).
  - discriminate.
Qed.

Lemma Close_step_frame (s s' : system) :
  Close_step s = Some s' ->
  sys_worker s' = sys_worker s /\
  client (sys_logger s') = client (sys_logger s) /\
  chan_buf (buffer (sys_logger s')) = chan_buf (buffer (sys_logger s)) /\
  cfg (sys_logger s') = cfg (sys_logger s) /\
  maxLogMessageChars (sys_logger s') = maxLogMessageChars (sys_logger s).
Proof.
  unfold Close_step, isClosed, close_chan.
  destruct (sys_closer s); try discriminate.
  - destruct (closed _); intros H; inversion H; repeat split; reflexivity.
  - destruct (chan_closed _); intros H; inversion H; repeat split; reflexivity.
  - destruct (pc _); intros H; inversion H; repeat split; reflexivity.
Qed.

Lemma sys_step_batching (bytes : string) (a : action) (s s' : system) :
  sys_step a s = Some s' ->
  batching_inv bytes s -> batching_inv bytes s'.
Proof.
  unfold batching_inv. intros Hstep (Hb & Hok & Hs & Hd).
  destruct s as [l w c]. cbn [sys_logger sys_worker] in *.
  destruct a as [p|]; cbn [sys_step sys_logger sys_worker sys_closer] in Hstep.
  - unfold runner in Hstep. rewrite Hb in Hstep.
    destruct (runBatching_step p l w) as [[l' w']|] eqn:Hr; [|discriminate].
    inversion Hstep; subst s'. cbn [sys_logger sys_worker].
    destruct (runBatching_step_stream p l l' w w' c Hok Hr)
      as (H1 & H2 & H3 & _ & _ & H6).
    rewrite H3. repeat split; auto. now rewrite H2.
  - destruct (Close_step_frame _ _ Hstep) as (Hw & Hc & Hq & Hcfg & _).
    cbn [sys_logger sys_worker] in *.
    unfold stream. rewrite Hw, Hc, Hq, Hcfg. repeat split; auto.
Qed.

Lemma run_batching (bytes : string) (sched : list action) :
  forall s s',
    run sched s = Some s' ->
    batching_inv bytes s -> batching_inv bytes s'.
Proof.
  induction sched as [|a sched IH]; intros s s' Hrun Hs.
  - cbn in Hrun. now inversion Hrun; subst.
  - cbn [run] in Hrun. destruct (sys_step a s) as [s1|] eqn:Hstep; [|discriminate].
    eapply IH; [eassumption|]. eapply sys_step_batching; eassumption.
Qed.

Lemma runner_done (p : pick) (l : TencentCLSLogger) (w : worker) :
  pc w = WDone -> runner p l w = None.
Proof.
  intros Hpc. unfold runner, runBatching_step, runImmediate_step.
  rewrite Hpc. now destruct (BatchEnabled (cfg l)).
Qed.

Lemma sys_step_closer_waits (a : action) (s s' : system) :
  sys_step a s = Some s' -> closer_waits s -> closer_waits s'.
Proof.
  unfold closer_waits. destruct s as [l w c].
  destruct a as [p|]; cbn [sys_step sys_logger sys_worker sys_closer].
  - destruct (runner p l w) as [[l' w']|] eqn:Hr; [|discriminate].
    intros H; inversion H; subst s'. cbn [sys_logger sys_worker sys_closer].
    destruct (runner_closed _ _ _ _ _ Hr) as [Hc _].
    destruct c; auto; [congruence|].
    intros Hd. rewrite (runner_done p l w Hd) in Hr. discriminate.
  - unfold Close_step, isClosed, close_chan.
    cbn [sys_logger sys_worker sys_closer].
    destruct c; try discriminate.
    + destruct (closed l) eqn:Hc; intros H; inversion H; subst; cbn; auto.
      intros Hf. congruence.
    + destruct (chan_closed _); intros H; inversion H; subst; cbn; auto.
    + destruct (pc w) eqn:Hp; intros H; inversion H; subst; cbn; auto.
Qed.

Lemma run_closer_waits (sched : list action) :
  forall s s', run sched s = Some s' -> closer_waits s -> closer_waits s'.
Proof.
  induction sched as [|a sched IH]; intros s s' Hrun Hs.
  - cbn in Hrun. now inversion Hrun; subst.
  - cbn [run] in Hrun. destruct (sys_step a s) as [s1|] eqn:Hstep; [|discriminate].
    eapply IH; [eassumption|]. eapply sys_step_closer_waits; eassumption.
Qed.

(** X5: in batching mode no step of the worker or of [Close] loses,
    duplicates or reorders a byte: the messages sent (each followed by a
    newline), then the batch, then the messages of the buffer (each followed
    by a newline) spell the same text before and after any schedule, and the
    batch stays empty or newline-terminated. *)
Theorem runBatching_keeps_stream (sched : list action) (s s' : system) :
  BatchEnabled (cfg (sys_logger s)) = true ->
  batch_ok (batch (sys_worker s)) ->
  pc (sys_worker s) <> WDone ->
  run sched s = Some s' ->
  stream s' = stream s /\ batch_ok (batch (sys_worker s')).
Proof.
  intros Hb Hok Hnd Hrun.
  destruct (run_batching (stream s) sched s s' Hrun) as (_ & Hok' & Hs & _).
  - repeat split; auto. intros Hd. contradiction.
  - auto.
Qed.

(** X6: when [Close] has returned in batching mode the buffer is empty, and
    everything that was queued is in what the client received or in the
    batch that [runBatching] left behind, in order. *)
Theorem runBatching_Close_leaves_batch (sched : list action) (s s' : system)
    (e : option error) :
  BatchEnabled (cfg (sys_logger s)) = true ->
  batch_ok (batch (sys_worker s)) ->
  pc (sys_worker s) <> WDone ->
  closed (sys_logger s) = false ->
  sys_closer s = CEntry ->
  run sched s = Some s' ->
  sys_closer s' = CReturned e ->
  chan_buf (buffer (sys_logger s')) = [] /\
  (lines (client (sys_logger s')) ++ batch (sys_worker s'))%string = stream s.
Proof.
  intros Hb Hok Hnd Hcl Hc Hrun Hret.
  destruct (run_batching (stream s) sched s s' Hrun) as (_ & Hok' & Hs & Hd).
  { repeat split; auto. intros Hd. contradiction. }
  pose proof (run_closer_waits sched s s' Hrun) as Hw.
  unfold closer_waits in Hw. rewrite Hc, Hret in Hw. specialize (Hw Hcl).
  specialize (Hd Hw). split; [exact Hd|].
  rewrite <- Hs. unfold stream. rewrite Hd. cbn [lines map join].
  now rewrite append_empty_r.
Qed.

Lemma sys_step_flushed (a : action) (s s' : system) :
  BatchEnabled (cfg (sys_logger s)) = true ->
  sys_step a s = Some s' ->
  flushed_inv s -> flushed_inv s'.
Proof.
  unfold flushed_inv. intros Hb Hstep (Hq & Hnl & He).
  destruct s as [l w c]. cbn [sys_logger sys_worker] in *.
  destruct a as [p|]; cbn [sys_step sys_logger sys_worker sys_closer] in Hstep.
  - unfold runner in Hstep. rewrite Hb in Hstep.
    unfold runBatching_step, chan_recv in Hstep. rewrite Hq in Hstep.
    destruct (pc w) eqn:Hpc; try congruence.
    + destruct (flush l w) as [l1 w1] eqn:Hf. inversion Hstep; subst s'.
      cbn [sys_logger sys_worker pc set_pc batch].
      unfold flush in Hf. destruct (String.length (batch w) =? 0)%nat eqn:Hlen.
      * inversion Hf; subst. repeat split; auto; try discriminate.
        intros _. destruct (batch w1); [reflexivity | discriminate].
      * inversion Hf; subst. cbn. repeat split; auto; discriminate.
    + destruct (chan_closed (buffer l)); inversion Hstep; subst s'.
      cbn [sys_logger sys_worker pc set_pc batch].
      repeat split; auto; try discriminate;
        try (intros _; apply He; discriminate).
  - destruct (Close_step_frame _ _ Hstep) as (Hw & _ & Hq' & _).
    cbn [sys_logger sys_worker] in *. rewrite Hw, Hq'. auto.
Qed.

Lemma runner_keeps_settings (p : pick) (l l' : TencentCLSLogger) (w w' : worker) :
  runner p l w = Some (l', w') ->
  cfg l' = cfg l /\ maxLogMessageChars l' = maxLogMessageChars l.
Proof.
  unfold runner, runBatching_step, runImmediate_step.
  assert (Hadd : forall ch v, add (set_buffer l ch) w v = (l', w') ->
                 cfg l' = cfg l /\ maxLogMessageChars l' = maxLogMessageChars l).
  { intros ch v Ha. apply add_frame in Ha as [[c ->] _]. auto. }
  assert (Hflush : forall w0 w1, flush l w0 = (l', w1) ->
                   cfg l' = cfg l /\ maxLogMessageChars l' = maxLogMessageChars l).
  { intros w0 w1 Hf. apply flush_frame in Hf as [[c ->] _]. auto. }
  destruct (BatchEnabled (cfg l)), (pc w); try discriminate;
    try destruct p; try discriminate;
    try (destruct (chan_recv (buffer l)) as [v ch'| |]; try discriminate);
    try (destruct (closed l) eqn:Hc; try discriminate);
    try (destruct (flush l w) as [l1 w1] eqn:Hf);
    intros H; inversion H; subst; auto;
    try (eapply Hadd; eassumption); try (eapply Hflush; eassumption).
Qed.

Lemma sys_step_cfg (a : action) (s s' : system) :
  sys_step a s = Some s' ->
  cfg (sys_logger s') = cfg (sys_logger s) /\
  maxLogMessageChars (sys_logger s') = maxLogMessageChars (sys_logger s).
Proof.
  destruct a as [p|]; cbn [sys_step].
  - destruct (runner _ _ _) as [[l' w']|] eqn:Hr; [|discriminate].
    intros H; inversion H; subst s'. cbn [sys_logger].
    eapply runner_keeps_settings; eassumption.
  - intros H. apply Close_step_frame in H. tauto.
Qed.

Lemma run_flushed (sched : list action) :
  forall s s',
    BatchEnabled (cfg (sys_logger s)) = true ->
    run sched s = Some s' ->
    flushed_inv s -> flushed_inv s'.
Proof.
  induction sched as [|a sched IH]; intros s s' Hb Hrun Hs.
  - cbn in Hrun. now inversion Hrun; subst.
  - cbn [run] in Hrun. destruct (sys_step a s) as [s1|] eqn:Hstep; [|discriminate].
    eapply (IH s1); [|eassumption|].
    + destruct (sys_step_cfg _ _ _ Hstep) as [Hc _]. now rewrite Hc.
    + eapply sys_step_flushed; eassumption.
Qed.

(** X7: when [runBatching] leaves its loop on an empty buffer, its deferred
    [flush()] sends the whole batch: at the worker's end the batch is empty
    and the client has received its text. *)
Theorem runBatching_exit_on_empty_buffer_delivers (sched : list action)
    (s s' : system) :
  BatchEnabled (cfg (sys_logger s)) = true ->
  batch_ok (batch (sys_worker s)) ->
  pc (sys_worker s) = WDeferFlush ->
  chan_buf (buffer (sys_logger s)) = [] ->
  run sched s = Some s' ->
  pc (sys_worker s') = WDone ->
  batch (sys_worker s') = EmptyString /\
  lines (client (sys_logger s'))
  = (lines (client (sys_logger s)) ++ batch (sys_worker s))%string.
Proof.
  intros Hb Hok Hpc Hq Hrun Hdone.
  destruct (run_flushed sched s s' Hb Hrun) as (Hq' & _ & He).
  { repeat split; auto; try congruence. }
  assert (Hbatch : batch (sys_worker s') = EmptyString)
    by (apply He; congruence).
  split; [exact Hbatch|].
  destruct (run_batching (stream s) sched s s' Hrun) as (_ & _ & Hs & _).
  { repeat split; auto; try congruence. }
  unfold stream in Hs. rewrite Hq, Hq', Hbatch in Hs. cbn [lines map join] in Hs.
  now rewrite !append_empty_r in Hs.
Qed.

(** ** The running count; the immediate worker *)

Lemma flush_count (l l' : TencentCLSLogger) (w w' : worker) :
  flush l w = (l', w') ->
  (batch w = EmptyString /\ w' = w) \/
  (batch w' = EmptyString /\ batchRuneCount w' = 0).
Proof.
  unfold flush. destruct (String.length (batch w) =? 0)%nat eqn:Hlen.
  - intros H; inversion H; subst. left. split; [|reflexivity].
    destruct (batch w'); [reflexivity | discriminate].
  - intros H; inversion H; subst. right. auto.
Qed.

Lemma RuneCountInString_nonneg (s : string) : 0 <= utf8.RuneCountInString s.
Proof. unfold utf8.RuneCountInString. lia. Qed.

Lemma snoc_not_empty (s t : string) (c : ascii) :
  (s ++ t ++ String c EmptyString)%string <> EmptyString.
Proof.
  destruct s; [|discriminate]. rewrite append_nil.
  destruct t; discriminate.
Qed.

Lemma flush_count_ok (l l' : TencentCLSLogger) (w w' : worker) (limit : Z) :
  count_ok limit w -> flush l w = (l', w') -> count_ok limit w'.
Proof.
  intros Hc Hf. destruct (flush_count _ _ _ _ Hf) as [[_ ->] | [He Hz]]; [exact Hc|].
  unfold count_ok in *. rewrite Hz. split; [lia | auto].
Qed.

Lemma add_count_ok (l l' : TencentCLSLogger) (w w' : worker) (m : string) :
  count_ok (maxLogMessageChars l) w ->
  add l w m = (l', w') ->
  count_ok (maxLogMessageChars l) w'.
Proof.
  intros Hc Ha. unfold add in Ha. cbn [batchRuneCount] in Ha.
  pose proof (RuneCountInString_nonneg m) as Hm.
  destruct (Z.leb_spec (maxLogMessageChars l)
              (batchRuneCount w + (utf8.RuneCountInString m + 1))) as [Hle | Hlt].
  - destruct (flush_count _ _ _ _ Ha) as [[He _] | [He Hz]].
    + cbn in He. now apply snoc_not_empty in He.
    + unfold count_ok in *. rewrite Hz. split; [lia | auto].
  - inversion Ha; subst. unfold count_ok in *. cbn.
    split; [lia|]. intros He. now apply snoc_not_empty in He.
Qed.

Lemma runBatching_step_count (p : pick) (l l' : TencentCLSLogger) (w w' : worker) :
  runBatching_step p l w = Some (l', w') ->
  count_ok (maxLogMessageChars l) w ->
  count_ok (maxLogMessageChars l) w'.
Proof.
  intros Hstep Hc. unfold runBatching_step in Hstep.
  assert (Hset : forall w0 q, count_ok (maxLogMessageChars l) w0 ->
                              count_ok (maxLogMessageChars l) (set_pc w0 q))
    by (intros w0 q H; exact H).
  destruct (pc w).
  - destruct p.
    + destruct (chan_recv (buffer l)) as [v ch'| |]; inversion Hstep as [Ha].
      * eapply (add_count_ok (set_buffer l ch')); eassumption.
      * subst. apply Hset, Hc.
    + inversion Hstep as [Hf]. eapply flush_count_ok; eassumption.
    + destruct (closed l); inversion Hstep; subst. apply Hset, Hc.
  - destruct (flush l w) as [l1 w1] eqn:Hf. inversion Hstep; subst.
    apply Hset. eapply flush_count_ok; eassumption.
  - destruct (chan_recv (buffer l)) as [v ch'| |]; inversion Hstep as [Ha].
    + eapply (add_count_ok (set_buffer l ch')); eassumption.
    + subst. apply Hset, Hc.
  - discriminate.
Qed.

Lemma run_count (sched : list action) :
  forall s s',
    BatchEnabled (cfg (sys_logger s)) = true ->
    run sched s = Some s' ->
    count_ok (maxLogMessageChars (sys_logger s)) (sys_worker s) ->
    count_ok (maxLogMessageChars (sys_logger s)) (sys_worker s').
Proof.
  induction sched as [|a sched IH]; intros s s' Hb Hrun Hs.
  - cbn in Hrun. now inversion Hrun; subst.
  - cbn [run] in Hrun. destruct (sys_step a s) as [s1|] eqn:Hstep; [|discriminate].
    destruct (sys_step_cfg _ _ _ Hstep) as [Hcfg Hmax].
    rewrite <- Hmax. apply IH; [now rewrite Hcfg | exact Hrun |].
    rewrite Hmax. destruct a as [p|]; cbn [sys_step] in Hstep.
    + unfold runner in Hstep. rewrite Hb in Hstep.
      destruct (runBatching_step p _ _) as [[l' w']|] eqn:Hr; [|discriminate].
      inversion Hstep; subst s1. cbn [sys_worker].
      eapply runBatching_step_count; eassumption.
    + apply Close_step_frame in Hstep as (Hw & _). now rewrite Hw.
Qed.

(** X8: with a limit of at least one rune, the running count of
    [runBatching] is, between any two steps, at least zero and below the
    limit, and zero on an empty batch. *)
Theorem runBatching_count_below_limit (sched : list action)
    (l : TencentCLSLogger) (s' : system) :
  BatchEnabled (cfg l) = true ->
  1 <= maxLogMessageChars l ->
  run sched (start l) = Some s' ->
  0 <= batchRuneCount (sys_worker s') < maxLogMessageChars l /\
  (batch (sys_worker s') = EmptyString -> batchRuneCount (sys_worker s') = 0).
Proof.
  intros Hb Hmax Hrun.
  apply (run_count sched (start l) s' Hb Hrun).
  split; [cbn; lia | reflexivity].
Qed.

Lemma immediate_start (s : system) :
  BatchEnabled (cfg (sys_logger s)) = false ->
  pc (sys_worker s) = WLoop ->
  immediate_inv (client (sys_logger s) ++ chan_buf (buffer (sys_logger s))) s.
Proof.
  intros Hb Hpc. repeat split; [exact Hb|]. rewrite Hpc. discriminate.
Qed.

(** X9: in immediate mode, when [Close] has returned, the client has
    received every message that was in the buffer, after what it had, in
    order, and the buffer is empty: the deferred [drain()] loses nothing. *)
Theorem runImmediate_Close_delivers_in_order (sched : list action)
    (s s' : system) (e : option error) :
  BatchEnabled (cfg (sys_logger s)) = false ->
  pc (sys_worker s) = WLoop ->
  closed (sys_logger s) = false ->
  sys_closer s = CEntry ->
  run sched s = Some s' ->
  sys_closer s' = CReturned e ->
  client (sys_logger s')
  = client (sys_logger s) ++ chan_buf (buffer (sys_logger s)) /\
  chan_buf (buffer (sys_logger s')) = [].
Proof.
  intros Hb Hpc Hcl Hc Hrun Hret.
  destruct (run_immediate _ sched s s' Hrun (immediate_start s Hb Hpc))
    as (_ & Hd & Hq).
  pose proof (run_closer_waits sched s s' Hrun) as Hw.
  unfold closer_waits in Hw. rewrite Hc, Hret in Hw. specialize (Hw Hcl).
  specialize (Hq Hw). split; [|exact Hq].
  rewrite <- Hd, Hq. now rewrite app_nil_r.
Qed.

(** ** Partial logs through [Log]; the formatter *)

(** X10: [Append] touches the group of the fragment it is given and no
    other: every other identifier maps to what it did. *)
Theorem Append_leaves_other_groups (b b' : partialLogBuffer) (log : Message)
    (meta : PartialLogMetaData) (r : option Message * bool) (id : string) :
  PLogMetaData log = Some meta ->
  Append b log = Returns b' r ->
  id <> ID meta ->
  b' !! id = b !! id.
Proof.
  intros Hm Ha Hne. unfold Append in Ha. rewrite Hm in Ha.
  destruct (b !! ID meta) as [plog|]; destruct (Last meta);
    inversion Ha; subst;
    rewrite ?lookup_delete_ne, ?lookup_insert_ne by congruence; reflexivity.
Qed.

Lemma and_then_one (l1 : TencentCLSLogger) (k : TencentCLSLogger -> list call) :
  and_then [Returns l1 None] k = k l1.
Proof. unfold and_then. cbn [flat_map]. apply app_nil_r. Qed.

Lemma Log_fragment (fuel : nat) (l : TencentCLSLogger) (m : Message)
    (b' : partialLogBuffer) :
  closed l = false ->
  Append (partialLogsBuffer l) m = Returns b' (None, false) ->
  Log fuel l m = [Returns (set_partialLogsBuffer l b') None].
Proof.
  intros Hcl Ha. unfold Log, isClosed. rewrite Hcl.
  destruct (PLogMetaData m) as [meta|] eqn:Hm.
  - now rewrite Ha.
  - unfold Append in Ha. rewrite Hm in Ha. discriminate.
Qed.

Lemma Log_last_fragment (fuel : nat) (l : TencentCLSLogger) (m assembled : Message)
    (b' : partialLogBuffer) :
  closed l = false ->
  PLogMetaData assembled = None ->
  Append (partialLogsBuffer l) m = Returns b' (Some assembled, true) ->
  Log fuel l m = Log fuel (set_partialLogsBuffer l b') assembled.
Proof.
  intros Hcl Hnone Ha. unfold Log, isClosed. cbn [closed set_partialLogsBuffer].
  rewrite Hcl, Hnone.
  destruct (PLogMetaData m) as [meta|] eqn:Hm.
  - rewrite Ha. reflexivity.
  - unfold Append in Ha. rewrite Hm in Ha. discriminate.
Qed.

Lemma set_partialLogsBuffer_same (l : TencentCLSLogger) :
  set_partialLogsBuffer l (partialLogsBuffer l) = l.
Proof. now destruct l. Qed.

Lemma Log_all_assembling (fuel : nat) (frags : list Message) :
  forall (l : TencentCLSLogger) (id : string) (acc final : Message),
    closed l = false ->
    PLogMetaData acc = None ->
    partialLogsBuffer l !! id = Some acc ->
    Forall (is_fragment id false) frags ->
    is_fragment id true final ->
    Log_all fuel l (frags ++ [final])
    = and_then
        (Log fuel (set_partialLogsBuffer l (delete id (partialLogsBuffer l)))
           (set_Line acc (Line acc ++ join (map Line (frags ++ [final])))))
        (fun l' => [Returns l' None]).
Proof.
  induction frags as [|m frags IH]; intros l id acc final Hcl Hacc Hb Hfr Hfin.
  - cbn [app Log_all map join].
    rewrite (Log_last_fragment fuel l final
               (set_Line acc (Line acc ++ Line final))
               (delete id (partialLogsBuffer l)) Hcl Hacc
               (Append_last _ id acc final Hb Hfin)).
    now rewrite append_empty_r.
  - apply Forall_cons in Hfr as [Hm Hfr].
    cbn [app Log_all map join].
    rewrite (Log_fragment fuel l m _ Hcl (Append_more _ id acc m Hb Hm)).
    rewrite and_then_one.
    rewrite (IH _ id (set_Line acc (Line acc ++ Line m)) final);
      [|exact Hcl|exact Hacc|apply lookup_insert_eq|exact Hfr|exact Hfin].
    cbn [partialLogsBuffer set_partialLogsBuffer Line set_Line].
    rewrite delete_insert_eq. now rewrite append_assoc.
Qed.

Lemma and_then_ret (cs : list call) :
  and_then cs (fun l' => [Returns l' None]) = cs.
Proof.
  unfold and_then. induction cs as [|c cs IH]; [reflexivity|].
  cbn [flat_map]. rewrite IH. now destruct c as [l' [e|] | | |].
Qed.

(** X11: [Log] called on the fragments of one group, the last one marked
    [Last], does what one [Log] does on the assembled record: the filter, the
    formatter and the split see the concatenated line once. *)
Theorem Log_fragments_as_one (fuel : nat) (l : TencentCLSLogger) (id : string)
    (frags : list Message) (final : Message) :
  closed l = false ->
  partialLogsBuffer l !! id = None ->
  Forall (is_fragment id false) frags ->
  is_fragment id true final ->
  exists assembled,
    Line assembled = join (map Line (frags ++ [final])) /\
    PLogMetaData assembled = None /\
    Log_all fuel l (frags ++ [final]) = Log fuel l assembled.
Proof.
  intros Hcl Hb Hfr Hfin. destruct frags as [|m frags].
  - exists (set_Line (seed final) (Line final)).
    cbn [app map join Log_all]. rewrite append_empty_r.
    split; [reflexivity|]. split; [reflexivity|].
    rewrite and_then_ret.
    rewrite (Log_last_fragment fuel l final (set_Line (seed final) (Line final))
               (partialLogsBuffer l) Hcl eq_refl (Append_only _ id final Hb Hfin)).
    now rewrite set_partialLogsBuffer_same.
  - apply Forall_cons in Hfr as [Hm Hfr].
    exists (set_Line (seed m) (Line m ++ join (map Line (frags ++ [final])))).
    split; [reflexivity|]. split; [reflexivity|].
    cbn [app Log_all].
    rewrite (Log_fragment fuel l m _ Hcl (Append_first _ id m Hb Hm)).
    rewrite and_then_one. cbv beta.
    rewrite (Log_all_assembling fuel frags
               (set_partialLogsBuffer l
                  (<[id := set_Line (seed m) (Line m)]> (partialLogsBuffer l)))
               id (set_Line (seed m) (Line m)) final);
      [|exact Hcl|reflexivity|apply lookup_insert_eq|exact Hfr|exact Hfin].
    rewrite and_then_ret.
    destruct l as [c f cf mx bf pb cl]. cbn in Hb |- *.
    rewrite delete_insert_id by exact Hb. reflexivity.
Qed.

Lemma runes_of_string_nonempty (c : ascii) (s : string) :
  utf8.runes_of_string (String c s) <> [].
Proof.
  unfold utf8.runes_of_string. cbn [utf8.runes_from].
  now destruct (utf8.DecodeRuneInString (String c s)).
Qed.

(** X12: with a negative message limit ([WithMaxLogMessageChars] takes any
    [int]) [Log] panics on every message whose formatted text is not empty,
    on the slice [runes[:end]]; an empty text is dropped without being
    enqueued. *)
Theorem Log_negative_limit (fuel : nat) (l : TencentCLSLogger) (msg : Message)
    (text : string) :
  closed l = false ->
  PLogMetaData msg = None ->
  (forall matches, FilterRegex (cfg l) = Some matches -> matches (Line msg) = true) ->
  Format (formatter l) msg = Some text ->
  maxLogMessageChars l < 0 ->
  Log (S fuel) l msg
  = match text with
    | EmptyString => [Returns l None]
    | String _ _ => [Panics "slice bounds out of range"]
    end.
Proof.
  intros Hcl Hp Hf Hfmt Hmax.
  rewrite (Log_formats_then_enqueues (S fuel) l msg text Hcl Hp Hf Hfmt).
  pose proof (RuneCountInString_nonneg text) as Hrc.
  replace (maxLogMessageChars l <? utf8.RuneCountInString text) with true
    by (symmetry; apply Z.ltb_lt; lia).
  destruct text as [|c s]; [reflexivity|].
  apply splitLoop_negative_panics; [exact Hmax | apply runes_of_string_nonempty].
Qed.

(** X13: a built-in tag always resolves, and to a value that depends on the
    message and the container only: the extra attributes cannot shadow
    it. *)
Theorem tagFunc_builtin_ignores_attrs (f f' : messageFormatter) (msg : Message)
    (tag : string) :
  In tag builtin_tags ->
  containerDetails f' = containerDetails f ->
  tagFunc f' msg tag = tagFunc f msg tag /\
  exists v, tagFunc f msg tag = inr v.
Proof.
  intros Hin Hcd. split.
  - unfold tagFunc. rewrite Hcd. cbn in Hin.
    repeat (destruct Hin as [<- | Hin]; [reflexivity|]). destruct Hin.
  - apply tagFunc_known. now left.
Qed.

Lemma scan_text_plain (s : string) :
  forall cur : string,
    has_byte "{" s = false ->
    scan InText cur s = inr (mkTemplate [(cur ++ s)%string] []).
Proof.
  induction s as [|c s IH]; intros cur Hs.
  - cbn [scan]. now rewrite append_empty_r.
  - cbn [has_byte] in Hs. apply orb_false_iff in Hs as [Hc Hs].
    cbn [scan]. rewrite Hc. rewrite IH by exact Hs.
    now rewrite append_assoc.
Qed.

Lemma scan_tag_open (s : string) :
  forall cur : string,
    has_byte "}" s = false ->
    scan InTag cur s = inl (errEndTag (cur ++ s)%string).
Proof.
  induction s as [|c s IH]; intros cur Hs.
  - cbn [scan]. now rewrite append_empty_r.
  - cbn [has_byte] in Hs. apply orb_false_iff in Hs as [Hc Hs].
    cbn [scan]. rewrite Hc. rewrite IH by exact Hs.
    now rewrite append_assoc.
Qed.

Lemma scan_text_prefix (pre : string) :
  forall (cur rest : string),
    has_byte "{" pre = false ->
    scan InText cur (pre ++ String "{" rest)
    = match scan InTag EmptyString rest with
      | inr t => inr (mkTemplate ((cur ++ pre)%string :: texts t) (tags t))
      | inl e => inl e
      end.
Proof.
  induction pre as [|c pre IH]; intros cur rest Hs.
  - rewrite append_nil, append_empty_r. reflexivity.
  - cbn [has_byte] in Hs. apply orb_false_iff in Hs as [Hc Hs].
    rewrite append_cons. cbn [scan]. rewrite Hc. rewrite IH by exact Hs.
    now rewrite append_assoc.
Qed.

(** X14: a template without an opening brace is accepted whatever it
    holds, and [Format] returns it unchanged for every message. *)
Theorem newMessageFormatter_plain_template (cd : ContainerDetails)
    (attributes : gmap string string) (tmpl now : string) :
  has_byte "{" tmpl = false ->
  exists f,
    newMessageFormatter cd attributes tmpl now = inr f /\
    forall msg, Format f msg = Some tmpl.
Proof.
  intros Hs. unfold newMessageFormatter, NewTemplate.
  rewrite (scan_text_plain tmpl EmptyString Hs), append_nil.
  eexists. split; [reflexivity|]. intros msg. reflexivity.
Qed.

(** X15: a template whose first opening brace is not followed by a closing
    brace is refused by [fasttemplate.NewTemplate], with the text after the
    brace as the tag it could not end. *)
Theorem newMessageFormatter_open_tag (cd : ContainerDetails)
    (attributes : gmap string string) (pre rest now : string) :
  has_byte "{" pre = false ->
  has_byte "}" rest = false ->
  newMessageFormatter cd attributes (pre ++ String "{" rest) now
  = inl (errEndTag rest).
Proof.
  intros Hpre Hrest. unfold newMessageFormatter, NewTemplate.
  rewrite (scan_text_prefix pre EmptyString rest Hpre).
  now rewrite (scan_tag_open rest EmptyString Hrest), append_nil.
Qed.

(** ** The configuration *)

Lemma is_empty_spec (s : string) : is_empty s = true <-> s = EmptyString.
Proof. unfold is_empty. apply String.eqb_eq. Qed.

(** X17: [ClientConfig.Validate] returns [nil] exactly when [Endpoint],
    [SecretID], [SecretKey] and [TopicID] are all non-empty; otherwise the
    joined error lists one message per empty field, in that order. *)
Theorem ClientConfig_Validate_nil_iff (c : ClientConfig) :
  (ClientConfig_Validate c = None <->
   Endpoint c <> EmptyString /\ SecretID c <> EmptyString /\
   SecretKey c <> EmptyString /\ TopicID c <> EmptyString) /\
  (forall errs, ClientConfig_Validate c = Some errs ->
     errs = (if is_empty (Endpoint c) then ["endpoint is required"%string] else [])
            ++ (if is_empty (SecretID c) then ["secret ID is required"%string] else [])
            ++ (if is_empty (SecretKey c) then ["secret key is required"%string] else [])
            ++ (if is_empty (TopicID c) then ["topic ID is required"%string] else [])).
Proof.
  unfold ClientConfig_Validate, errors_Join.
  destruct (is_empty (Endpoint c)) eqn:H1, (is_empty (SecretID c)) eqn:H2,
           (is_empty (SecretKey c)) eqn:H3, (is_empty (TopicID c)) eqn:H4;
    cbn [app];
    repeat match goal with
      | H : is_empty _ = true |- _ => apply is_empty_spec in H
      | H : is_empty _ = false |- _ =>
          apply not_true_iff_false in H; rewrite is_empty_spec in H
      end;
    (split; [split; [intros H; try discriminate H; tauto
                    | intros (?&?&?&?); try congruence]
            | intros errs H; inversion H; reflexivity]).
Qed.

Lemma known_option_spec (opt : string) :
  existsb (String.eqb opt) known_options = true <-> In opt known_options.
Proof.
  rewrite existsb_exists. split.
  - intros (x & Hin & Heq). apply String.eqb_eq in Heq. now subst.
  - intros Hin. exists opt. split; [exact Hin | apply String.eqb_refl].
Qed.

Lemma validateDriverOptions_nil (keys : list string) :
  validateDriverOptions keys = None <-> Forall (fun k => In k known_options) keys.
Proof.
  induction keys as [|opt keys IH]; cbn [validateDriverOptions].
  - split; [constructor | reflexivity].
  - destruct (existsb (String.eqb opt) known_options) eqn:Hk.
    + rewrite IH, Forall_cons. apply known_option_spec in Hk. tauto.
    + split; [discriminate|]. intros H. apply Forall_cons in H as [H _].
      apply known_option_spec in H. congruence.
Qed.

Lemma validateDriverOptions_error (keys : list string) (e : config_error) :
  validateDriverOptions keys = Some e ->
  exists opt, e = errUnknownOpt opt /\ In opt keys /\ ~ In opt known_options.
Proof.
  induction keys as [|opt keys IH]; cbn [validateDriverOptions]; [discriminate|].
  destruct (existsb (String.eqb opt) known_options) eqn:Hk.
  - intros H. destruct (IH H) as (o & He & Hin & Hn).
    exists o. split; [exact He|]. split; [now right | exact Hn].
  - intros H. inversion H. exists opt. split; [reflexivity|].
    split; [now left|]. intros Hin. apply known_option_spec in Hin. congruence.
Qed.

(** X18: [validateDriverOptions] returns [nil] exactly when every option
    is a known one, so whether it fails does not depend on the order in
    which the [range] visits the map; an error names an option of the map
    that is not known. *)
Theorem validateDriverOptions_order_free (keys keys' : list string) :
  Permutation keys keys' ->
  (validateDriverOptions keys = None <-> Forall (fun k => In k known_options) keys) /\
  (validateDriverOptions keys = None <-> validateDriverOptions keys' = None) /\
  (forall e, validateDriverOptions keys = Some e ->
     exists opt, e = errUnknownOpt opt /\ In opt keys' /\ ~ In opt known_options).
Proof.
  intros Hp. split; [apply validateDriverOptions_nil|]. split.
  - rewrite !validateDriverOptions_nil. split; intros H.
    + now rewrite <- Hp.
    + now rewrite Hp.
  - intros e He. destruct (validateDriverOptions_error keys e He) as (o & H1 & H2 & H3).
    exists o. split; [exact H1|]. split; [|exact H3].
    apply list_elem_of_In. rewrite <- Hp. now apply list_elem_of_In.
Qed.

(** X19: [loggerConfig.Validate] returns [nil] exactly when the options
    are all known and the client's configuration is valid; an error of the
    client's configuration is only reported once the options passed. *)
Theorem validateConfig_nil_iff (keys : list string) (c : ClientConfig) :
  (validateConfig keys c = None <->
   Forall (fun k => In k known_options) keys /\ ClientConfig_Validate c = None) /\
  (forall missing, validateConfig keys c = Some (errClientConfig missing) ->
     Forall (fun k => In k known_options) keys).
Proof.
  unfold validateConfig. split.
  - rewrite <- validateDriverOptions_nil.
    destruct (validateDriverOptions keys) as [e|]; [split; [discriminate | intros [H _]; discriminate]|].
    destruct (ClientConfig_Validate c); split; try discriminate; auto.
    intros [_ H]. discriminate.
  - intros missing H. apply validateDriverOptions_nil.
    destruct (validateDriverOptions keys) as [e|] eqn:He; [|reflexivity].
    inversion H; subst.
    apply validateDriverOptions_error in He as (o & Ho & _). discriminate.
Qed.

(** X20: a client configuration that [parseClientConfig] returns has a
    number of retries that is not negative, the four identifying fields as
    the container's configuration gives them, and the default number of
    retries and timeout where the option is absent, the parsed value where
    it is present. *)
Theorem parseClientConfig_result (Atoi ParseDuration : string -> option Z)
    (config : gmap string string) (c : ClientConfig) :
  parseClientConfig Atoi ParseDuration config = inr c ->
  0 <= Retries c /\
  Endpoint c = config_get config cfgEndpointKey /\
  SecretID c = config_get config cfgSecretIDKey /\
  SecretKey c = config_get config cfgSecretKeyKey /\
  TopicID c = config_get config cfgTopicIDKey /\
  (config !! cfgRetriesKey = None -> Retries c = defaultRetries) /\
  (config !! cfgTimeoutKey = None -> Timeout c = defaultTimeout) /\
  (forall r, config !! cfgRetriesKey = Some r -> Atoi r = Some (Retries c)) /\
  (forall t, config !! cfgTimeoutKey = Some t -> ParseDuration t = Some (Timeout c)).
Proof.
  unfold parseClientConfig.
  destruct (config !! cfgRetriesKey) as [r|] eqn:Hr.
  - destruct (Atoi r) as [n|] eqn:Ha; [|discriminate].
    destruct (Z.ltb_spec n 0) as [Hn | Hn]; [discriminate|].
    destruct (config !! cfgTimeoutKey) as [t|] eqn:Ht.
    + destruct (ParseDuration t) as [d|] eqn:Hd; [|discriminate].
      intros H; inversion H; subst; cbn.
      repeat split; auto; try discriminate; intros ? E; inversion E; subst; auto.
    + intros H; inversion H; subst; cbn.
      repeat split; auto; try discriminate; intros ? E; inversion E; subst; auto.
  - destruct (config !! cfgTimeoutKey) as [t|] eqn:Ht.
    + destruct (ParseDuration t) as [d|] eqn:Hd; [|discriminate].
      intros H; inversion H; subst; cbn.
      repeat split; auto; try discriminate; try (unfold defaultRetries; lia);
        intros ? E; inversion E; subst; auto.
    + intros H; inversion H; subst; cbn.
      repeat split; auto; try discriminate; try (unfold defaultRetries; lia).
Qed.

(** ** The direct logger; the constructor *)

Lemma Direct_Close_closed (l : Direct.TencentCLSLogger) :
  Direct.closed (fst (Direct.Close l)) = true /\ snd (Direct.Close l) = None.
Proof.
  unfold Direct.Close, Direct.isClosed.
  destruct (Direct.closed l) eqn:Hc; cbn; auto.
Qed.

Lemma Direct_Close_again (l : Direct.TencentCLSLogger) :
  Direct.closed l = true -> Direct.Close l = (l, None).
Proof. intros Hc. unfold Direct.Close, Direct.isClosed. now rewrite Hc. Qed.

(** X21: the logger that sends directly: however often [Close] is called
    on a logger that was open, every call returns [nil], the first as the
    later ones, the client is closed once and nothing is sent; and [Log]
    afterwards returns the closed-logger error and changes nothing. *)
Theorem Direct_Close_closes_client_once (n : nat) (l : Direct.TencentCLSLogger) :
  Direct.closed l = false ->
  let after k := Nat.iter k (fun l0 => fst (Direct.Close l0)) l in
  (forall k, snd (Direct.Close (after k)) = None) /\
  Direct.client_closes (after 1%nat) = S (Direct.client_closes l) /\
  Direct.client_closes (after (S n)) = S (Direct.client_closes l) /\
  Direct.sent (after (S n)) = Direct.sent l /\
  Direct.Close (after (S n)) = (after (S n), None) /\
  forall msg,
    Direct.Log (after (S n)) msg = Returns (after (S n)) (Some errLoggerClosed).
Proof.
  intros Hcl after.
  assert (H : forall m, Direct.closed (after (S m)) = true /\
              Direct.client_closes (after (S m)) = S (Direct.client_closes l) /\
              Direct.sent (after (S m)) = Direct.sent l).
  { subst after. induction m as [|m IH].
    - cbn. unfold Direct.Close, Direct.isClosed. rewrite Hcl. cbn. auto.
    - destruct IH as (Hc & Hn & Hs).
      change (Nat.iter (S (S m)) (fun l0 => fst (Direct.Close l0)) l)
        with (fst (Direct.Close (Nat.iter (S m) (fun l0 => fst (Direct.Close l0)) l))).
      rewrite (Direct_Close_again _ Hc). cbn [fst]. auto. }
  split; [intros k; apply Direct_Close_closed|].
  split; [apply (H 0%nat)|].
  destruct (H n) as (Hc & Hn & Hs).
  split; [exact Hn|]. split; [exact Hs|]. split; [now apply Direct_Close_again|].
  intros msg. unfold Direct.Log, Direct.isClosed. now rewrite Hc.
Qed.

(** X22: the logger that sends directly: [Log] on a complete message sends
    the formatted text whole, in one call of the client, unless the filter
    rejects the line, in which case nothing is sent. *)
Theorem Direct_Log_sends_whole (l : Direct.TencentCLSLogger) (msg : Message)
    (text : string) :
  Direct.closed l = false ->
  PLogMetaData msg = None ->
  Format (Direct.formatter l) msg = Some text ->
  Direct.Log l msg
  = if match Direct.filter l with
       | Some matches => matches (Line msg)
       | None => true
       end
    then Returns (Direct.send l text) None
    else Returns l None.
Proof.
  intros Hcl Hp Hf. unfold Direct.Log, Direct.isClosed. rewrite Hcl, Hp.
  destruct (Direct.filter l) as [matches|].
  - destruct (matches (Line msg)); cbn [negb]; [now rewrite Hf | reflexivity].
  - now rewrite Hf.
Qed.

(** What the options keep: an open logger with an empty buffer and the
    configuration it was given. *)
Lemma logger_option_keeps (config : loggerConfig) (fmt : messageFormatter)
    (opt : TencentCLSLogger -> TencentCLSLogger) (l : TencentCLSLogger) :
  logger_option opt ->
  (closed l = false /\ chan_closed (buffer l) = false /\
   chan_buf (buffer l) = [] /\ client l = [] /\ cfg l = config /\
   formatter l = fmt /\ partialLogsBuffer l = newPartialLogBuffer /\
   0 <= chan_cap (buffer l) /\
   (0 < MaxBufferSize config -> 0 < chan_cap (buffer l))) ->
  (closed (opt l) = false /\ chan_closed (buffer (opt l)) = false /\
   chan_buf (buffer (opt l)) = [] /\ client (opt l) = [] /\ cfg (opt l) = config /\
   formatter (opt l) = fmt /\ partialLogsBuffer (opt l) = newPartialLogBuffer /\
   0 <= chan_cap (buffer (opt l)) /\
   (0 < MaxBufferSize config -> 0 < chan_cap (buffer (opt l)))).
Proof.
  intros Hopt H. destruct Hopt as [capacity | maxLen].
  - unfold WithBufferCapacity. destruct (Z.ltb_spec 0 capacity); [|exact H].
    destruct H as (H1 & H2 & H3 & H4 & H5 & H6 & H7 & H8 & H9).
    cbn. repeat split; auto; lia.
  - exact H.
Qed.

(** X16: [NewTencentCLSLogger] returns the error of the first of its three
    steps that fails, wrapped: of [parseLoggerConfig], else of
    [newMessageFormatter], else of [NewClient].  When none fails, whatever
    options of [logger.go] it is given, the logger is open, its buffer empty
    and open, its client has received nothing, its partial-log buffer is
    empty, its configuration and formatter are the ones built, and with
    [MaxBufferSize > 0] the capacity is positive.  With no option the limit
    and the capacity are the defaults. *)
Theorem NewTencentCLSLogger_starts_open {E C : Type}
    (parseLoggerConfig : ContainerDetails -> E + loggerConfig)
    (NewClient : loggerConfig -> option C)
    (cd : ContainerDetails) (now : string)
    (opts : list (TencentCLSLogger -> TencentCLSLogger)) :
  Forall logger_option opts ->
  match parseLoggerConfig cd with
  | inl err =>
      NewTencentCLSLogger parseLoggerConfig NewClient cd now opts
      = inl (errParseLoggerConfig err)
  | inr config =>
      match newMessageFormatter cd (Attrs config) (Template_ config) now with
      | inl err =>
          NewTencentCLSLogger parseLoggerConfig NewClient cd now opts
          = inl (errCreateFormatter err)
      | inr fmt =>
          match NewClient config with
          | Some err =>
              NewTencentCLSLogger parseLoggerConfig NewClient cd now opts
              = inl (errCreateClient err)
          | None =>
              exists l,
                NewTencentCLSLogger parseLoggerConfig NewClient cd now opts
                = inr l /\
                closed l = false /\ chan_closed (buffer l) = false /\
                chan_buf (buffer l) = [] /\ client l = [] /\ cfg l = config /\
                formatter l = fmt /\
                partialLogsBuffer l = newPartialLogBuffer /\
                (0 < MaxBufferSize config -> open_bounded l) /\
                (opts = [] ->
                 maxLogMessageChars l = defaultLogMessageChars /\
                 chan_cap (buffer l)
                 = if MaxBufferSize config <=? 0 then 0
                   else defaultBufferCapacity)
          end
      end
  end.
Proof.
  intros Hopts. unfold NewTencentCLSLogger.
  destruct (parseLoggerConfig cd) as [err | config]; [reflexivity|].
  destruct (newMessageFormatter cd (Attrs config) (Template_ config) now)
    as [e | fmt]; [reflexivity|].
  destruct (NewClient config) as [err|]; [reflexivity|].
  set (l0 := mkLogger [] fmt config defaultLogMessageChars
               (make_chan (if MaxBufferSize config <=? 0 then 0
                           else defaultBufferCapacity))
               newPartialLogBuffer false).
  assert (H0 : closed l0 = false /\ chan_closed (buffer l0) = false /\
               chan_buf (buffer l0) = [] /\ client l0 = [] /\ cfg l0 = config /\
               formatter l0 = fmt /\ partialLogsBuffer l0 = newPartialLogBuffer /\
               0 <= chan_cap (buffer l0) /\
               (0 < MaxBufferSize config -> 0 < chan_cap (buffer l0))).
  { cbn. repeat split; auto.
    - destruct (_ <=? _); unfold defaultBufferCapacity; lia.
    - intros Hm. destruct (Z.leb_spec (MaxBufferSize config) 0);
        unfold defaultBufferCapacity; lia. }
  assert (Hfold : forall l,
    (closed l = false /\ chan_closed (buffer l) = false /\
     chan_buf (buffer l) = [] /\ client l = [] /\ cfg l = config /\
     formatter l = fmt /\ partialLogsBuffer l = newPartialLogBuffer /\
     0 <= chan_cap (buffer l) /\
     (0 < MaxBufferSize config -> 0 < chan_cap (buffer l))) ->
    let l' := fold_left (fun l opt => opt l) opts l in
    closed l' = false /\ chan_closed (buffer l') = false /\
    chan_buf (buffer l') = [] /\ client l' = [] /\ cfg l' = config /\
    formatter l' = fmt /\ partialLogsBuffer l' = newPartialLogBuffer /\
    0 <= chan_cap (buffer l') /\
    (0 < MaxBufferSize config -> 0 < chan_cap (buffer l'))).
  { induction Hopts as [|opt opts Hopt _ IH]; intros l Hl; [exact Hl|].
    cbn [fold_left]. apply IH. now apply logger_option_keeps. }
  destruct (Hfold l0 H0) as (H1 & H2 & H3 & H4 & H5 & H6 & H7 & H8 & H9).
  eexists. split; [reflexivity|].
  do 7 (split; [assumption|]).
  split.
  - intros Hm. unfold open_bounded. rewrite H5, H3. cbn [length].
    repeat split; auto; try lia. all: specialize (H9 Hm); lia.
  - intros ->. split; reflexivity.
Qed.

(** ** The statements at concrete inputs *)

Lemma enqueue_bounded_never_blocks_witness :
  open_bounded (queued false ["a"%string]) /\
  exists l',
    enqueue (queued false ["a"%string]) "b" = [Returns l' None] /\
    chan_buf (buffer l') = ["a"; "b"]%string.
Proof.
  assert (H : open_bounded (queued false ["a"%string]))
    by (repeat split; vm_compute; congruence).
  split; [exact H|].
  destruct (enqueue_bounded_never_blocks (queued false ["a"%string]) "b" H)
    as (l' & He & _ & _ & _ & Hb).
  exists l'. split; [exact He | exact Hb].
Defined.


Lemma enqueue_all_keeps_newest_witness :
  open_bounded (example_logger 1 false 4096 2) /\
  exists l',
    enqueue_all (example_logger 1 false 4096 2) ["a"; "b"; "c"]%string
    = [Returns l' None] /\
    chan_buf (buffer l') = ["b"; "c"]%string.
Proof.
  assert (H : open_bounded (example_logger 1 false 4096 2))
    by (repeat split; vm_compute; congruence).
  split; [exact H|].
  destruct (enqueue_all_keeps_newest (example_logger 1 false 4096 2)
              ["a"; "b"; "c"]%string H) as (l' & He & Hb & _).
  exists l'. split; [exact He | exact Hb].
Defined.

Lemma enqueue_touches_only_buffer_witness :
  In (Returns (queued false ["a"; "b"]%string) None)
     (enqueue (queued false ["a"%string]) "b") /\
  client (queued false ["a"; "b"]%string) = client (queued false ["a"%string]).
Proof.
  assert (H : In (Returns (queued false ["a"; "b"]%string) None)
                 (enqueue (queued false ["a"%string]) "b"))
    by (left; reflexivity).
  split; [exact H|].
  exact (proj1 (enqueue_touches_only_buffer _ _ _ _ H)).
Defined.

Lemma runBatching_keeps_stream_witness :
  exists s',
    run closed_first (start (queued true five_messages)) = Some s' /\
    stream s' = lines five_messages.
Proof.
  eexists. split; [vm_compute; reflexivity|].
  refine (proj1 (runBatching_keeps_stream closed_first
                   (start (queued true five_messages)) _ eq_refl _ _ _)).
  - left; reflexivity.
  - discriminate.
  - vm_compute; reflexivity.
Defined.

Lemma runBatching_Close_leaves_batch_witness :
  exists s',
    run closed_first (start (queued true five_messages)) = Some s' /\
    sys_closer s' = CReturned None /\
    chan_buf (buffer (sys_logger s')) = [] /\
    (lines (client (sys_logger s')) ++ batch (sys_worker s'))%string
    = lines five_messages.
Proof.
  eexists. split; [vm_compute; reflexivity|]. split; [reflexivity|].
  apply (runBatching_Close_leaves_batch closed_first
           (start (queued true five_messages)) _ None).
  - reflexivity.
  - left; reflexivity.
  - discriminate.
  - reflexivity.
  - reflexivity.
  - vm_compute; reflexivity.
  - reflexivity.
Defined.

Lemma runBatching_exit_on_empty_buffer_delivers_witness :
  exists s',
    run [ActWorker PickBuffer; ActWorker PickBuffer] leaving_with_ab = Some s' /\
    pc (sys_worker s') = WDone /\
    batch (sys_worker s') = EmptyString /\
    client (sys_logger s') = ["ab"%string].
Proof.
  eexists. split; [vm_compute; reflexivity|]. split; [reflexivity|].
  split; [|reflexivity].
  eapply proj1.
  apply (runBatching_exit_on_empty_buffer_delivers
           [ActWorker PickBuffer; ActWorker PickBuffer] leaving_with_ab).
  - reflexivity.
  - right. exists "ab"%string. reflexivity.
  - reflexivity.
  - reflexivity.
  - vm_compute; reflexivity.
  - reflexivity.
Defined.

Lemma runBatching_count_below_limit_witness :
  1 <= maxLogMessageChars (queued true five_messages) /\
  exists s',
    run (replicate 3 (ActWorker PickBuffer)) (start (queued true five_messages))
    = Some s' /\
    0 <= batchRuneCount (sys_worker s') < defaultLogMessageChars.
Proof.
  split; [discriminate|].
  eexists. split; [vm_compute; reflexivity|].
  refine (proj1 (runBatching_count_below_limit (replicate 3 (ActWorker PickBuffer))
                   (queued true five_messages) _ eq_refl _ _)).
  - discriminate.
  - vm_compute; reflexivity.
Defined.

Lemma runImmediate_Close_delivers_in_order_witness :
  exists s',
    run ([ActClose; ActClose; ActWorker PickClosed]
         ++ replicate 6 (ActWorker PickBuffer) ++ [ActClose])
      (start (queued false five_messages)) = Some s' /\
    sys_closer s' = CReturned None /\
    client (sys_logger s') = five_messages /\
    chan_buf (buffer (sys_logger s')) = [].
Proof.
  eexists. split; [vm_compute; reflexivity|]. split; [reflexivity|].
  apply (runImmediate_Close_delivers_in_order
           ([ActClose; ActClose; ActWorker PickClosed]
            ++ replicate 6 (ActWorker PickBuffer) ++ [ActClose])
           (start (queued false five_messages)) _ None).
  - reflexivity.
  - reflexivity.
  - reflexivity.
  - reflexivity.
  - vm_compute; reflexivity.
  - reflexivity.
Defined.

Lemma Append_leaves_other_groups_witness :
  exists b' r,
    Append (<["h"%string := plain "x"]> newPartialLogBuffer)
      (fragment "g" "ab" false) = Returns b' r /\
    b' !! "h"%string = Some (plain "x").
Proof.
  eexists. eexists. split; [vm_compute; reflexivity|].
  transitivity ((<["h"%string := plain "x"]> newPartialLogBuffer) !! "h"%string);
    [|reflexivity].
  apply (Append_leaves_other_groups
           (<["h"%string := plain "x"]> newPartialLogBuffer) _
           (fragment "g" "ab" false) (mkPLog "g" 0 false) (None, false)).
  - reflexivity.
  - vm_compute; reflexivity.
  - discriminate.
Defined.

Lemma Log_fragments_as_one_witness :
  partialLogsBuffer (example_logger 1 false 4096 10) !! "g"%string = None /\
  exists assembled,
    Line assembled = "abcd"%string /\
    Log_all 2 (example_logger 1 false 4096 10)
      ([fragment "g" "ab" false] ++ [fragment "g" "cd" true])
    = Log 2 (example_logger 1 false 4096 10) assembled.
Proof.
  split; [reflexivity|].
  destruct (Log_fragments_as_one 2 (example_logger 1 false 4096 10) "g"
              [fragment "g" "ab" false] (fragment "g" "cd" true))
    as (assembled & Hline & _ & Hlog).
  - reflexivity.
  - reflexivity.
  - repeat constructor. exists (mkPLog "g" 0 false). repeat split.
  - exists (mkPLog "g" 0 true). repeat split.
  - exists assembled. split; [exact Hline | exact Hlog].
Defined.

Lemma Log_negative_limit_witness :
  maxLogMessageChars (WithMaxLogMessageChars (-1) (example_logger 1 false 4096 10)) < 0 /\
  Log 1 (WithMaxLogMessageChars (-1) (example_logger 1 false 4096 10)) (plain "a")
  = [Panics "slice bounds out of range"].
Proof.
  split; [reflexivity|].
  apply (Log_negative_limit 0
           (WithMaxLogMessageChars (-1) (example_logger 1 false 4096 10))
           (plain "a") "a").
  - reflexivity.
  - reflexivity.
  - intros matches H. discriminate H.
  - reflexivity.
  - reflexivity.
Defined.

Lemma tagFunc_builtin_ignores_attrs_witness :
  In "container_name"%string builtin_tags /\
  tagFunc (mkFormatter (template example_formatter) example_details
             (<["container_name"%string := "other"%string]> ∅))
    (plain "x") "container_name"
  = tagFunc example_formatter (plain "x") "container_name".
Proof.
  assert (H : In "container_name"%string builtin_tags)
    by (do 4 right; left; reflexivity).
  split; [exact H|].
  apply (tagFunc_builtin_ignores_attrs example_formatter); [exact H | reflexivity].
Defined.

Lemma newMessageFormatter_plain_template_witness :
  has_byte "{" "no tags }" = false /\
  exists f,
    newMessageFormatter example_details ∅ "no tags }" "2024-01-01T00:00:00Z"
    = inr f /\
    Format f (plain "x") = Some "no tags }"%string.
Proof.
  split; [reflexivity|].
  destruct (newMessageFormatter_plain_template example_details ∅ "no tags }"
              "2024-01-01T00:00:00Z" eq_refl) as (f & Hf & Hfmt).
  exists f. split; [exact Hf | apply Hfmt].
Defined.

Lemma newMessageFormatter_open_tag_witness :
  has_byte "}" "log" = false /\
  newMessageFormatter example_details ∅ "a{log" "2024-01-01T00:00:00Z"
  = inl (errEndTag "log").
Proof.
  split; [reflexivity|].
  exact (newMessageFormatter_open_tag example_details ∅ "a" "log"
           "2024-01-01T00:00:00Z" eq_refl eq_refl).
Defined.

Lemma validateDriverOptions_order_free_witness :
  Permutation ["endpoint"; "bogus"]%string ["bogus"; "endpoint"]%string /\
  (validateDriverOptions ["endpoint"; "bogus"]%string = None <->
   validateDriverOptions ["bogus"; "endpoint"]%string = None).
Proof.
  assert (H : Permutation ["endpoint"; "bogus"]%string ["bogus"; "endpoint"]%string)
    by apply perm_swap.
  split; [exact H|].
  exact (proj1 (proj2 (validateDriverOptions_order_free _ _ H))).
Defined.

Lemma parseClientConfig_result_witness :
  parseClientConfig (fun _ => Some 3) (fun _ => Some 1000)
    (<[cfgRetriesKey := "3"%string]> ∅)
  = inr (mkClientConfig "" "" "" "" 3 defaultTimeout) /\
  0 <= Retries (mkClientConfig "" "" "" "" 3 defaultTimeout).
Proof.
  assert (H : parseClientConfig (fun _ => Some 3) (fun _ => Some 1000)
                (<[cfgRetriesKey := "3"%string]> ∅)
              = inr (mkClientConfig "" "" "" "" 3 defaultTimeout))
    by reflexivity.
  split; [exact H|].
  exact (proj1 (parseClientConfig_result _ _ _ _ H)).
Defined.

Lemma Direct_Close_closes_client_once_witness :
  Direct.closed example_direct = false /\
  snd (Direct.Close example_direct) = None /\
  snd (Direct.Close (fst (Direct.Close example_direct))) = None /\
  Direct.client_closes
    (Nat.iter 3 (fun l0 => fst (Direct.Close l0)) example_direct) = 1%nat.
Proof.
  split; [reflexivity|].
  destruct (Direct_Close_closes_client_once 2 example_direct eq_refl)
    as (Hnil & _ & Hn & _).
  split; [exact (Hnil 0%nat)|]. split; [exact (Hnil 1%nat) | exact Hn].
Defined.

Lemma Direct_Log_sends_whole_witness :
  Format (Direct.formatter example_direct) (plain "abcde") = Some "abcde"%string /\
  Direct.Log example_direct (plain "abcde")
  = Returns (Direct.send example_direct "abcde") None.
Proof.
  split; [reflexivity|].
  exact (Direct_Log_sends_whole example_direct (plain "abcde") "abcde"
           eq_refl eq_refl eq_refl).
Defined.

Lemma NewTencentCLSLogger_starts_open_witness :
  Forall logger_option [WithBufferCapacity 2; WithMaxLogMessageChars 10] /\
  (exists l,
     NewTencentCLSLogger (E := string) (C := string)
       (fun _ => inr (mkConfig ∅ "{log}" None 1 false)) (fun _ => None)
       example_details "2024-01-01T00:00:00Z"
       [WithBufferCapacity 2; WithMaxLogMessageChars 10]
     = inr l /\
     closed l = false /\ chan_buf (buffer l) = []) /\
  NewTencentCLSLogger (E := string) (C := string)
    (fun _ => inr (mkConfig ∅ "{nope}" None 1 false))
    (fun _ => Some "no endpoint"%string)
    example_details "2024-01-01T00:00:00Z"
    [WithBufferCapacity 2; WithMaxLogMessageChars 10]
  = inl (errCreateFormatter (errUnknownTag "nope")) /\
  NewTencentCLSLogger (E := string) (C := string)
    (fun _ => inr (mkConfig ∅ "{log}" None 1 false))
    (fun _ => Some "no endpoint"%string)
    example_details "2024-01-01T00:00:00Z"
    [WithBufferCapacity 2; WithMaxLogMessageChars 10]
  = inl (errCreateClient "no endpoint"%string).
Proof.
  assert (H : Forall logger_option [WithBufferCapacity 2; WithMaxLogMessageChars 10])
    by repeat constructor.
  split; [exact H|]. split; [|split].
  - pose proof (NewTencentCLSLogger_starts_open (E := string) (C := string)
                  (fun _ => inr (mkConfig ∅ "{log}" None 1 false)) (fun _ => None)
                  example_details "2024-01-01T00:00:00Z" _ H) as Hnew.
    destruct Hnew as (l & Hl & Hc & _ & Hb & _).
    exists l. split; [exact Hl|]. split; [exact Hc | exact Hb].
  - exact (NewTencentCLSLogger_starts_open (E := string) (C := string)
             (fun _ => inr (mkConfig ∅ "{nope}" None 1 false))
             (fun _ => Some "no endpoint"%string)
             example_details "2024-01-01T00:00:00Z" _ H).
  - exact (NewTencentCLSLogger_starts_open (E := string) (C := string)
             (fun _ => inr (mkConfig ∅ "{log}" None 1 false))
             (fun _ => Some "no endpoint"%string)
             example_details "2024-01-01T00:00:00Z" _ H).
Defined.
